(** * canvas-experiments: the beat detector and the demo runner

    A shallow embedding of
      - [music-visualization/js/BeatDetector.js] (class [BeatDetector]) and
      - the [DemoRunner] class of the visual-effects gallery together with
        the lifecycle methods of [BaseDemo] it calls.

    JavaScript numbers are idealised as real numbers: [+ - * /], [Math.sqrt],
    [Math.min], [Math.pow] and [Math.round] are the exact operations on [R],
    and the comparisons are the order of [R].  [NaN] and the infinities have
    no counterpart.  Arrays are lists, [push] appends at the end and [shift]
    removes the head.

    Where the rounding of double precision decides the outcome, the module
    [BeatDetector64] repeats the beat decision of [update] on IEEE 754
    binary64 numbers. *)

From stdpp Require Import base strings gmap.
From Stdlib Require Import Reals Lra Lia ZArith List Sorted Permutation.
From Stdlib Require Floats Uint63.
Import ListNotations.

(** ** JavaScript helpers *)

Module Js.

Local Open Scope R_scope.

(** A numeric option field: absent ([undefined]) or a number. *)
Inductive value : Type :=
  | undefined
  | num (r : R).

(** [v || d] for a numeric [v]: [undefined] and [0] are falsy. *)
Definition or_default (v : value) (d : R) : R :=
  match v with
  | undefined => d
  | num r => if Req_dec_T r 0 then d else r
  end.

(** [a > b] as a boolean. *)
Definition gtb (a b : R) : bool := if Rgt_dec a b then true else false.

(** [a < b] as a boolean. *)
Definition ltb (a b : R) : bool := if Rlt_dec a b then true else false.

(** [arr.push(x)] *)
Definition push {A : Type} (arr : list A) (x : A) : list A := arr ++ [x].

(** [arr.shift()] (the array that remains) *)
Definition shift {A : Type} (arr : list A) : list A := tl arr.

(** [Math.round]: the nearest integer, halves rounded up. *)
Definition Math_round (x : R) : R := IZR (Int_part (x + / 2)).

(** [arr.sort((a, b) => a - b)]: ascending order. *)
Fixpoint insert_sorted (x : R) (l : list R) : list R :=
  match l with
  | [] => [x]
  | y :: r => if Rle_dec x y then x :: l else y :: insert_sorted x r
  end.

Fixpoint sort (l : list R) : list R :=
  match l with
  | [] => []
  | x :: r => insert_sorted x (sort r)
  end.

End Js.

(** ** BeatDetector.js *)

Module BeatDetector.

Import Js.
Local Open Scope R_scope.

(** The [options] object of the constructor. *)
Record Options : Type := mkOptions {
  opt_sensitivity : value;
  opt_decayRate : value;
  opt_cooldownMs : value;
  opt_historyLength : value
}.

(** The fields of a [BeatDetector] object. *)
Record t : Type := mk {
  sensitivity : R;
  decayRate : R;
  cooldownMs : R;
  historyLength : R;
  energyHistory : list R;
  lastBeatTime : R;
  beatIntensity : R;
  _isBeat : bool;
  beatCount : nat;
  beatTimes : list R;
  estimatedBPM : R
}.

(** [constructor(options = {})] *)
Definition new (options : Options) : t :=
  {| sensitivity := or_default (opt_sensitivity options) 1.4;
     decayRate := or_default (opt_decayRate options) 0.93;
     cooldownMs := or_default (opt_cooldownMs options) 180;
     historyLength := or_default (opt_historyLength options) 30;
     energyHistory := [];
     lastBeatTime := 0;
     beatIntensity := 0;
     _isBeat := false;
     beatCount := 0;
     beatTimes := [];
     estimatedBPM := 0 |}.

(** [new BeatDetector()] *)
Definition no_options : Options :=
  mkOptions undefined undefined undefined undefined.

(** The loop of [updateTempoEstimate]: the differences of neighbouring beat
    times that lie strictly between 200 and 2000. *)
Fixpoint intervals_from (prev : R) (times : list R) : list R :=
  match times with
  | [] => []
  | x :: rest =>
      let interval := x - prev in
      if (gtb interval 200 && ltb interval 2000)%bool
      then interval :: intervals_from x rest
      else intervals_from x rest
  end.

Definition intervals (times : list R) : list R :=
  match times with
  | [] => []
  | x :: rest => intervals_from x rest
  end.

(** [intervals[Math.floor(intervals.length / 2)]] after sorting *)
Definition medianInterval (ivs : list R) : R :=
  nth (Nat.div (length ivs) 2) (sort ivs) 0.

(** [updateTempoEstimate()]: the new value of [estimatedBPM], given the beat
    times and the old value. *)
Definition updateTempoEstimate (times : list R) (bpm : R) : R :=
  if (length times <? 4)%nat then bpm
  else
    let ivs := intervals times in
    if (length ivs <? 3)%nat then bpm
    else Math_round (60000 / medianInterval ivs).

(** Average and variance of the energy window, as [update] computes them. *)
Definition average (h : list R) : R :=
  fold_left (fun a b => a + b) h 0 / INR (length h).

Definition variance (h : list R) : R :=
  let avgEnergy := average h in
  fold_left (fun sq n => sq + (n - avgEnergy) ^ 2) h 0 / INR (length h).

(** The energy window after the push and the conditional shift. *)
Definition pushEnergy (d : t) (bassEnergy : R) : list R :=
  let h := push (energyHistory d) bassEnergy in
  if gtb (INR (length h)) (historyLength d) then shift h else h.

(** The three-part condition of the [if] that declares a beat. *)
Definition beatCondition (d : t) (h : list R) (bassEnergy currentTime : R) : bool :=
  let avgEnergy := average h in
  let stdDev := sqrt (variance h) in
  let threshold := avgEnergy + sensitivity d * stdDev in
  let timeSinceLastBeat := currentTime - lastBeatTime d in
  (gtb bassEnergy threshold
   && gtb bassEnergy (avgEnergy * sensitivity d)
   && gtb timeSinceLastBeat (cooldownMs d))%bool.

(** [update(bassEnergy, currentTime)] *)
Definition update (d : t) (bassEnergy currentTime : R) : t :=
  let h := pushEnergy d bassEnergy in
  if (length h <? 10)%nat then
    {| sensitivity := sensitivity d; decayRate := decayRate d;
       cooldownMs := cooldownMs d; historyLength := historyLength d;
       energyHistory := h;
       lastBeatTime := lastBeatTime d;
       beatIntensity := beatIntensity d;
       _isBeat := false;
       beatCount := beatCount d;
       beatTimes := beatTimes d;
       estimatedBPM := estimatedBPM d |}
  else
    let avgEnergy := average h in
    if beatCondition d h bassEnergy currentTime then
      let times := push (beatTimes d) currentTime in
      let times := if (16 <? length times)%nat then shift times else times in
      {| sensitivity := sensitivity d; decayRate := decayRate d;
         cooldownMs := cooldownMs d; historyLength := historyLength d;
         energyHistory := h;
         lastBeatTime := currentTime;
         beatIntensity :=
           Rmin 1 ((bassEnergy - avgEnergy) / (avgEnergy + 0.01)) * decayRate d;
         _isBeat := true;
         beatCount := S (beatCount d);
         beatTimes := times;
         estimatedBPM := updateTempoEstimate times (estimatedBPM d) |}
    else
      {| sensitivity := sensitivity d; decayRate := decayRate d;
         cooldownMs := cooldownMs d; historyLength := historyLength d;
         energyHistory := h;
         lastBeatTime := lastBeatTime d;
         beatIntensity := beatIntensity d * decayRate d;
         _isBeat := false;
         beatCount := beatCount d;
         beatTimes := beatTimes d;
         estimatedBPM := estimatedBPM d |}.

(** [reset()] *)
Definition reset (d : t) : t :=
  {| sensitivity := sensitivity d; decayRate := decayRate d;
     cooldownMs := cooldownMs d; historyLength := historyLength d;
     energyHistory := [];
     lastBeatTime := 0;
     beatIntensity := 0;
     _isBeat := false;
     beatCount := 0;
     beatTimes := [];
     estimatedBPM := 0 |}.

(** The getters. *)
Definition isBeat (d : t) : bool := _isBeat d.
Definition getBeatIntensity (d : t) : R := beatIntensity d.
Definition getBPM (d : t) : R := estimatedBPM d.
Definition getBeatCount (d : t) : nat := beatCount d.

(** What a caller can observe between two updates. *)
Definition observe (d : t) : bool * R * R * nat :=
  (isBeat d, getBeatIntensity d, getBPM d, getBeatCount d).

(** A sequence of calls [update(energy, t)], as pairs [(energy, t)]. *)
Definition run (d : t) (calls : list (R * R)) : t :=
  fold_left (fun s c => update s (fst c) (snd c)) calls d.

(** The detector after each call of the sequence, in order. *)
Fixpoint states (d : t) (calls : list (R * R)) : list t :=
  match calls with
  | [] => []
  | c :: rest => let d' := update d (fst c) (snd c) in d' :: states d' rest
  end.

(** The observations after each call. *)
Definition outputs (d : t) (calls : list (R * R)) : list (bool * R * R * nat) :=
  map observe (states d calls).

(** Timestamps that never decrease from one call to the next. *)
Definition nondecreasing (ts : list R) : Prop := Sorted Rle ts.

(** The detectors that [new BeatDetector(options)] can become through calls
    of [update] and [reset]. *)
Inductive reachable (options : Options) : t -> Prop :=
  | reach_new : reachable options (new options)
  | reach_update (d : t) (e tm : R) :
      reachable options d -> reachable options (update d e tm)
  | reach_reset (d : t) :
      reachable options d -> reachable options (reset d).

(** *** Concrete inputs *)

(** One call per rendered frame, 16 ms apart, the first at [t0]. *)
Fixpoint frames (t0 : R) (energies : list R) : list (R * R) :=
  match energies with
  | [] => []
  | e :: rest => (e, t0) :: frames (t0 + 16) rest
  end.

(** Ten silent frames, one spike, [n] silent frames. *)
Definition spike (n : nat) : list R := repeat 0 10 ++ 1 :: repeat 0 n.

(** [new BeatDetector({ decayRate: 2 })] *)
Definition doubling : Options :=
  mkOptions undefined (num 2) undefined undefined.

(** [new BeatDetector({ sensitivity: -10 })] *)
Definition inverted : Options :=
  mkOptions (num (-10)) undefined undefined undefined.

(** Nine loud frames, then a softer one. *)
Definition dip : list (R * R) := frames 1000 (repeat 1 9 ++ [0.5]).


(** Ten silent frames, then three spikes 700 ms apart. *)
Definition threeSpikes : list (R * R) :=
  frames 840 (repeat 0 10) ++ [(1, 1000); (1, 1700); (1, 2400)].

End BeatDetector.

(** ** The beat decision in double precision

    The same [update] with JavaScript numbers as IEEE 754 binary64 values,
    every operation rounded as the language rounds it.  The module keeps
    the fields that decide [isBeat()]: the options, the energy window,
    [lastBeatTime] and [_isBeat].  [update] also assigns [beatIntensity],
    [beatCount], [beatTimes] and [estimatedBPM], but it reads none of them
    back when it decides on a beat. *)

Module BeatDetector64.

Import PrimFloat.
Local Open Scope float_scope.
Local Set Warnings "-inexact-float".

(** The length of an array, as a number. *)
Definition lengthOf {A : Type} (arr : list A) : float :=
  of_uint63 (Uint63.of_Z (Z.of_nat (length arr))).

(** [v || d] for a numeric option: [undefined], [0], [-0] and [NaN] are
    falsy. *)
Definition or_default (v : option float) (d : float) : float :=
  match v with
  | None => d
  | Some x => if (x =? 0) || is_nan x then d else x
  end.

(** [a > b] *)
Definition gtb (a b : float) : bool := b <? a.

Record Options : Type := mkOptions {
  opt_sensitivity : option float;
  opt_cooldownMs : option float;
  opt_historyLength : option float
}.

Record t : Type := mk {
  sensitivity : float;
  cooldownMs : float;
  historyLength : float;
  energyHistory : list float;
  lastBeatTime : float;
  _isBeat : bool
}.

(** [constructor(options = {})] *)
Definition new (options : Options) : t :=
  {| sensitivity := or_default (opt_sensitivity options) 1.4;
     cooldownMs := or_default (opt_cooldownMs options) 180;
     historyLength := or_default (opt_historyLength options) 30;
     energyHistory := [];
     lastBeatTime := 0;
     _isBeat := false |}.

Definition average (h : list float) : float :=
  fold_left (fun a b => a + b) h 0 / lengthOf h.

(** [Math.pow(n - avgEnergy, 2)] is the product of the difference with
    itself. *)
Definition variance (h : list float) : float :=
  let avgEnergy := average h in
  fold_left (fun sq n => sq + (n - avgEnergy) * (n - avgEnergy)) h 0
  / lengthOf h.

Definition pushEnergy (d : t) (bassEnergy : float) : list float :=
  let h := Js.push (energyHistory d) bassEnergy in
  if gtb (lengthOf h) (historyLength d) then Js.shift h else h.

Definition beatCondition (d : t) (h : list float) (bassEnergy currentTime : float) : bool :=
  let avgEnergy := average h in
  let stdDev := sqrt (variance h) in
  let threshold := avgEnergy + sensitivity d * stdDev in
  let timeSinceLastBeat := currentTime - lastBeatTime d in
  gtb bassEnergy threshold
  && gtb bassEnergy (avgEnergy * sensitivity d)
  && gtb timeSinceLastBeat (cooldownMs d).

(** [update(bassEnergy, currentTime)] *)
Definition update (d : t) (bassEnergy currentTime : float) : t :=
  let h := pushEnergy d bassEnergy in
  if (length h <? 10)%nat then
    {| sensitivity := sensitivity d; cooldownMs := cooldownMs d;
       historyLength := historyLength d;
       energyHistory := h;
       lastBeatTime := lastBeatTime d;
       _isBeat := false |}
  else if beatCondition d h bassEnergy currentTime then
    {| sensitivity := sensitivity d; cooldownMs := cooldownMs d;
       historyLength := historyLength d;
       energyHistory := h;
       lastBeatTime := currentTime;
       _isBeat := true |}
  else
    {| sensitivity := sensitivity d; cooldownMs := cooldownMs d;
       historyLength := historyLength d;
       energyHistory := h;
       lastBeatTime := lastBeatTime d;
       _isBeat := false |}.

Definition isBeat (d : t) : bool := _isBeat d.

(** The answers of [isBeat()] after each call of a sequence of calls
    [update(energy, t)]. *)
Fixpoint beats (d : t) (calls : list (float * float)) : list bool :=
  match calls with
  | [] => []
  | c :: rest =>
      let d' := update d (fst c) (snd c) in isBeat d' :: beats d' rest
  end.

(** [n] calls with the same energy, 16 ms apart from [t0] on. *)
Fixpoint steady (n : nat) (energy t0 : float) : list (float * float) :=
  match n with
  | O => []
  | S n => (energy, t0) :: steady n energy (t0 + 16)
  end.

End BeatDetector64.


(** ** The tempo rule as the specification words it *)

Module TempoSpec.

Import Js.
Local Open Scope R_scope.

(** Differences of neighbouring entries, oldest pair first. *)
Definition consecutive (times : list R) : list R :=
  map (fun p => snd p - fst p) (combine times (tl times)).

(** "discarding intervals outside [200ms, 2000ms]": the closed range. *)
Definition inClosedRange (i : R) : bool :=
  (negb (ltb i 200) && negb (gtb i 2000))%bool.

(** What the code keeps: the open range. *)
Definition inOpenRange (i : R) : bool :=
  (gtb i 200 && ltb i 2000)%bool.

(** The estimate in the words of the specification: at least 4 beat times,
    at least 3 intervals within [200, 2000], then 60000 / median; otherwise
    the previous value. *)
Definition statedTempo (times : list R) (bpm : R) : R :=
  let ivs := List.filter inClosedRange (consecutive times) in
  if ((4 <=? length times)%nat && (3 <=? length ivs)%nat)%bool
  then 60000 / BeatDetector.medianInterval ivs
  else bpm.

(** The same rule with the open range and the rounding of the code. *)
Definition roundedTempo (times : list R) (bpm : R) : R :=
  let ivs := List.filter inOpenRange (consecutive times) in
  if ((4 <=? length times)%nat && (3 <=? length ivs)%nat)%bool
  then Math_round (60000 / BeatDetector.medianInterval ivs)
  else bpm.

(** The last [n] entries of a list. *)
Definition lastN {A : Type} (n : nat) (l : list A) : list A :=
  skipn (length l - n) l.

End TempoSpec.

(** ** DemoRunner and the BaseDemo lifecycle

    Demo objects live in a heap and are named by their index in it; the
    runner holds a reference to the active one.  [console.error] is not
    modelled. *)

Module DemoRunner.

(** A registered demo class: its name and what [getDefaultOptions()] returns. *)
Record DemoClass : Type := mkClass {
  className : string;
  getDefaultOptions : gmap string Js.value
}.

(** The fields of a [BaseDemo] object that the lifecycle methods touch. *)
Record Demo : Type := mkDemo {
  demoClass : DemoClass;
  demoCanvas : nat;
  demoOptions : gmap string Js.value;
  isRunning : bool;
  listening : bool;
  initCalls : nat;
  frameRequests : nat
}.

(** [new DemoClass(canvas, options)]: the defaults overridden by [options],
    listeners attached, not running. *)
Definition construct (C : DemoClass) (cv : nat) (options : gmap string Js.value) : Demo :=
  {| demoClass := C;
     demoCanvas := cv;
     demoOptions := options ∪ getDefaultOptions C;
     isRunning := false;
     listening := true;
     initCalls := 0;
     frameRequests := 0 |}.

(** [BaseDemo.start()] *)
Definition start (d : Demo) : Demo :=
  if isRunning d then d
  else {| demoClass := demoClass d; demoCanvas := demoCanvas d;
          demoOptions := demoOptions d;
          isRunning := true;
          listening := listening d;
          initCalls := S (initCalls d);
          frameRequests := S (frameRequests d) |}.

(** [BaseDemo.stop()] *)
Definition stopDemo (d : Demo) : Demo :=
  {| demoClass := demoClass d; demoCanvas := demoCanvas d;
     demoOptions := demoOptions d;
     isRunning := false;
     listening := listening d;
     initCalls := initCalls d;
     frameRequests := frameRequests d |}.

(** [BaseDemo.destroy()]: [stop()], then the listeners are removed. *)
Definition destroy (d : Demo) : Demo :=
  let d := stopDemo d in
  {| demoClass := demoClass d; demoCanvas := demoCanvas d;
     demoOptions := demoOptions d;
     isRunning := isRunning d;
     listening := false;
     initCalls := initCalls d;
     frameRequests := frameRequests d |}.

(** The runner and the demo objects it has created. *)
Record t : Type := mk {
  heap : list Demo;
  registry : gmap string DemoClass;
  currentDemo : option nat;
  canvas : option nat;
  currentOptions : gmap string Js.value
}.

(** [constructor()] *)
Definition new : t :=
  {| heap := []; registry := ∅; currentDemo := None; canvas := None;
     currentOptions := ∅ |}.

(** [setCanvas(canvas)] *)
Definition setCanvas (r : t) (cv : nat) : t :=
  {| heap := heap r; registry := registry r; currentDemo := currentDemo r;
     canvas := Some cv; currentOptions := currentOptions r |}.

(** [register(id, DemoClass)] *)
Definition register (r : t) (id : string) (C : DemoClass) : t :=
  {| heap := heap r; registry := <[id := C]> (registry r);
     currentDemo := currentDemo r; canvas := canvas r;
     currentOptions := currentOptions r |}.

(** [stop()] *)
Definition stop (r : t) : t :=
  match currentDemo r with
  | Some p =>
      {| heap := alter destroy p (heap r); registry := registry r;
         currentDemo := None; canvas := canvas r;
         currentOptions := currentOptions r |}
  | None => r
  end.

(** [load(id, options)]: the returned boolean and the runner afterwards. *)
Definition load (r : t) (id : string) (options : gmap string Js.value) : bool * t :=
  match canvas r with
  | None => (false, r)
  | Some cv =>
      match registry r !! id with
      | None => (false, r)
      | Some C =>
          let r1 := stop r in
          let demo := start (construct C cv options) in
          (true,
           {| heap := heap r1 ++ [demo]; registry := registry r1;
              currentDemo := Some (length (heap r1)); canvas := canvas r1;
              currentOptions := options |})
      end
  end.

(** [BaseDemo.setOption(name, value)]; the [onOptionChange] hook of
    [BaseDemo] does nothing. *)
Definition setDemoOption (d : Demo) (name : string) (v : Js.value) : Demo :=
  {| demoClass := demoClass d; demoCanvas := demoCanvas d;
     demoOptions := <[name := v]> (demoOptions d);
     isRunning := isRunning d;
     listening := listening d;
     initCalls := initCalls d;
     frameRequests := frameRequests d |}.

(** [registerAll(demos)], the entries of [demos] in their order. *)
Definition registerAll (r : t) (demos : list (string * DemoClass)) : t :=
  fold_left (fun r e => register r (fst e) (snd e)) demos r.

(** [pause()] *)
Definition pause (r : t) : t :=
  match currentDemo r with
  | Some p =>
      {| heap := alter stopDemo p (heap r); registry := registry r;
         currentDemo := currentDemo r; canvas := canvas r;
         currentOptions := currentOptions r |}
  | None => r
  end.

(** [isRunning()]: [this.currentDemo?.isRunning ?? false] *)
Definition isRunningNow (r : t) : bool :=
  match currentDemo r with
  | Some p =>
      match heap r !! p with
      | Some d => isRunning d
      | None => false
      end
  | None => false
  end.

(** [resume()] *)
Definition resume (r : t) : t :=
  match currentDemo r with
  | Some p =>
      if negb (isRunningNow r) then
        {| heap := alter start p (heap r); registry := registry r;
           currentDemo := currentDemo r; canvas := canvas r;
           currentOptions := currentOptions r |}
      else r
  | None => r
  end.

(** [setOption(name, value)] *)
Definition setOption (r : t) (name : string) (v : Js.value) : t :=
  match currentDemo r with
  | Some p =>
      {| heap := alter (fun d => setDemoOption d name v) p (heap r);
         registry := registry r;
         currentDemo := currentDemo r; canvas := canvas r;
         currentOptions := <[name := v]> (currentOptions r) |}
  | None => r
  end.

(** [getOptions()] *)
Definition getOptions (r : t) : gmap string Js.value := currentOptions r.

(** [getCurrent()]: the active demo object, if any. *)
Definition getCurrent (r : t) : option Demo :=
  match currentDemo r with
  | Some p => heap r !! p
  | None => None
  end.

(** The calls a page can make on the runner. *)
Inductive call : Type :=
  | CallSetCanvas (cv : nat)
  | CallRegister (id : string) (C : DemoClass)
  | CallLoad (id : string) (options : gmap string Js.value)
  | CallStop
  | CallPause
  | CallResume
  | CallSetOption (name : string) (v : Js.value).

Definition perform (r : t) (c : call) : t :=
  match c with
  | CallSetCanvas cv => setCanvas r cv
  | CallRegister id C => register r id C
  | CallLoad id options => snd (load r id options)
  | CallStop => stop r
  | CallPause => pause r
  | CallResume => resume r
  | CallSetOption name v => setOption r name v
  end.

(** The runner after a sequence of calls on a new one. *)
Definition after (calls : list call) : t := fold_left perform calls new.



(** Every option the runner reports is an option of the active demo, with
    the same value. *)
Definition optionsAgree (r : t) : Prop :=
  forall d : Demo, getCurrent r = Some d -> getOptions r ⊆ demoOptions d.


End DemoRunner.

(** ** The animation state of a BaseDemo

    The fields that [start], [stop] and the frame callback [_render] use;
    the hooks [init], [update] and [render] of [BaseDemo] do nothing. *)

Module FrameLoop.

Local Open Scope R_scope.

Record t : Type := mk {
  isRunning : bool;
  time : R;
  lastTime : R;
  deltaTime : R;
  frameCount : nat
}.

(** The animation fields as the constructor sets them. *)
Definition new : t :=
  {| isRunning := false; time := 0; lastTime := 0; deltaTime := 0;
     frameCount := 0 |}.

(** [start()], with the value of [performance.now()] *)
Definition start (d : t) (now : R) : t :=
  if isRunning d then d
  else {| isRunning := true; time := time d; lastTime := now;
          deltaTime := deltaTime d; frameCount := frameCount d |}.

(** [stop()] *)
Definition stop (d : t) : t :=
  {| isRunning := false; time := time d; lastTime := lastTime d;
     deltaTime := deltaTime d; frameCount := frameCount d |}.

(** [_render(time)] *)
Definition _render (d : t) (tm : R) : t :=
  if negb (isRunning d) then d
  else {| isRunning := isRunning d; time := tm; lastTime := tm;
          deltaTime := tm - lastTime d; frameCount := S (frameCount d) |}.

(** The frame callbacks delivered at the given times. *)
Definition frames (d : t) (times : list R) : t := fold_left _render times d.

(** The [deltaTime] handed to [update] on each frame. *)
Fixpoint deltas (d : t) (times : list R) : list R :=
  match times with
  | [] => []
  | tm :: rest => deltaTime (_render d tm) :: deltas (_render d tm) rest
  end.

End FrameLoop.

(** ** MathUtils.js: MathUtils and Easing *)

Module MathUtils.

Local Open Scope R_scope.

(** [Math.hypot(a, b)] *)
Definition Math_hypot (a b : R) : R := sqrt (a * a + b * b).

(** [Math.floor] *)
Definition Math_floor (x : R) : R := IZR (Int_part x).

Definition clamp (value min max : R) : R := Rmax min (Rmin max value).

Definition distance (x1 y1 x2 y2 : R) : R := Math_hypot (x2 - x1) (y2 - y1).

(** [randomInt(min, max)], with the value [u] that [Math.random()] returns. *)
Definition randomInt (u min max : R) : R :=
  Math_floor (u * (max - min + 1)) + min.

(** The first loop of [normalizeAngle]: [while (angle < 0) angle += 2 PI].
    [None] when the loop has not ended within [fuel] tests. *)
Fixpoint raiseAngle (fuel : nat) (angle : R) : option R :=
  match fuel with
  | O => None
  | S fuel =>
      if Js.ltb angle 0 then raiseAngle fuel (angle + PI * 2) else Some angle
  end.

(** The second loop: [while (angle >= 2 PI) angle -= 2 PI]. *)
Fixpoint lowerAngle (fuel : nat) (angle : R) : option R :=
  match fuel with
  | O => None
  | S fuel =>
      if negb (Js.ltb angle (PI * 2)) then lowerAngle fuel (angle - PI * 2)
      else Some angle
  end.

Definition normalizeAngle (fuel : nat) (angle : R) : option R :=
  match raiseAngle fuel angle with
  | Some a => lowerAngle fuel a
  | None => None
  end.

End MathUtils.

Module Easing.

Local Open Scope R_scope.

Definition linear (t : R) : R := t.

Definition easeInQuad (t : R) : R := t * t.
Definition easeOutQuad (t : R) : R := t * (2 - t).
Definition easeInOutQuad (t : R) : R :=
  if Js.ltb t 0.5 then 2 * t * t else -1 + (4 - 2 * t) * t.

Definition easeInCubic (t : R) : R := t * t * t.
(** [--t * t * t + 1]: [t] is decremented before it is read. *)
Definition easeOutCubic (t : R) : R := let t := t - 1 in t * t * t + 1.
Definition easeInOutCubic (t : R) : R :=
  if Js.ltb t 0.5 then 4 * t * t * t
  else (t - 1) * (2 * t - 2) * (2 * t - 2) + 1.

Definition easeInQuart (t : R) : R := t * t * t * t.
Definition easeOutQuart (t : R) : R := let t := t - 1 in 1 - t * t * t * t.
Definition easeInOutQuart (t : R) : R :=
  if Js.ltb t 0.5 then 8 * t * t * t * t
  else let t := t - 1 in 1 - 8 * t * t * t * t.

Definition easeInQuint (t : R) : R := t * t * t * t * t.
Definition easeOutQuint (t : R) : R := let t := t - 1 in 1 + t * t * t * t * t.
Definition easeInOutQuint (t : R) : R :=
  if Js.ltb t 0.5 then 16 * t * t * t * t * t
  else let t := t - 1 in 1 + 16 * t * t * t * t * t.

Definition easeInBack (t : R) : R :=
  let c1 := 1.70158 in
  let c3 := c1 + 1 in
  c3 * t * t * t - c1 * t * t.

Definition easeOutBack (t : R) : R :=
  let c1 := 1.70158 in
  let c3 := c1 + 1 in
  1 + c3 * (t - 1) ^ 3 + c1 * (t - 1) ^ 2.

Definition easeOutBounce (t : R) : R :=
  let n1 := 7.5625 in
  let d1 := 2.75 in
  if Js.ltb t (1 / d1) then n1 * t * t
  else if Js.ltb t (2 / d1) then
    let t := t - 1.5 / d1 in n1 * t * t + 0.75
  else if Js.ltb t (2.5 / d1) then
    let t := t - 2.25 / d1 in n1 * t * t + 0.9375
  else
    let t := t - 2.625 / d1 in n1 * t * t + 0.984375.

Definition easeInBounce (t : R) : R := 1 - easeOutBounce (1 - t).

Definition easeInOutBounce (t : R) : R :=
  if Js.ltb t 0.5 then (1 - easeOutBounce (1 - 2 * t)) / 2
  else (1 + easeOutBounce (2 * t - 1)) / 2.

End Easing.


(** ** Facts about the JavaScript helpers *)

Module JsFacts.

Import Js.
Local Open Scope R_scope.

Lemma gtb_true (a b : R) : gtb a b = true <-> a > b.
Proof. unfold gtb. destruct (Rgt_dec a b); split; intros; try discriminate; tauto. Qed.

Lemma gtb_false (a b : R) : gtb a b = false <-> a <= b.
Proof.
  unfold gtb. destruct (Rgt_dec a b); split; intros;
    first [discriminate | reflexivity | lra].
Qed.

Lemma ltb_true (a b : R) : ltb a b = true <-> a < b.
Proof. unfold ltb. destruct (Rlt_dec a b); split; intros; try discriminate; tauto. Qed.

Lemma ltb_false (a b : R) : ltb a b = false <-> b <= a.
Proof.
  unfold ltb. destruct (Rlt_dec a b); split; intros;
    first [discriminate | reflexivity | lra].
Qed.

Lemma or_default_undefined (d : R) : or_default undefined d = d.
Proof. reflexivity. Qed.

Lemma or_default_zero (d : R) : or_default (num 0) d = d.
Proof. simpl. destruct (Req_dec_T 0 0); [reflexivity | contradiction]. Qed.

Lemma or_default_truthy (r d : R) : r <> 0 -> or_default (num r) d = r.
Proof. intros H. simpl. destruct (Req_dec_T r 0); [contradiction | reflexivity]. Qed.

Lemma sqrt_lt_bound (v c : R) : 0 < c -> v < c * c -> sqrt v < c.
Proof.
  intros Hc Hv. destruct (Rle_dec 0 v).
  - rewrite <- (sqrt_square c) by lra. apply sqrt_lt_1; lra.
  - rewrite sqrt_neg_0 by lra. assumption.
Qed.

Lemma sqrt_gt_bound (v c : R) : 0 <= c -> c * c < v -> c < sqrt v.
Proof.
  intros Hc Hv. rewrite <- (sqrt_square c) at 1 by lra.
  apply sqrt_lt_1; nra.
Qed.


Lemma Math_round_spec (x : R) (z : Z) :
  IZR z - / 2 <= x < IZR z + / 2 -> Math_round x = IZR z.
Proof.
  intros H. unfold Math_round. f_equal. symmetry.
  apply Int_part_spec. lra.
Qed.

Lemma Rinv_INR_nonneg (n : nat) : 0 <= / INR n.
Proof.
  destruct n as [| n].
  - simpl. rewrite Rinv_0. lra.
  - left. apply Rinv_0_lt_compat, lt_0_INR. lia.
Qed.

(** *** The sort *)

Lemma insert_sorted_perm (x : R) (l : list R) :
  Permutation (x :: l) (insert_sorted x l).
Proof.
  induction l as [| y l IH]; simpl; [reflexivity |].
  destruct (Rle_dec x y); [reflexivity |].
  rewrite perm_swap. now apply perm_skip.
Qed.

Lemma sort_perm (l : list R) : Permutation l (sort l).
Proof.
  induction l as [| x l IH]; simpl; [reflexivity |].
  rewrite <- insert_sorted_perm. now apply perm_skip.
Qed.

Lemma insert_sorted_hd (x : R) (l : list R) (a : R) :
  a <= x -> HdRel Rle a l -> HdRel Rle a (insert_sorted x l).
Proof.
  intros Hax Hl. destruct l as [| y l]; simpl; [now constructor |].
  destruct (Rle_dec x y); constructor; [assumption |].
  now inversion Hl.
Qed.

Lemma insert_sorted_sorted (x : R) (l : list R) :
  Sorted Rle l -> Sorted Rle (insert_sorted x l).
Proof.
  induction 1 as [| y l Hs IH Hhd]; simpl; [repeat constructor |].
  destruct (Rle_dec x y) as [Hxy | Hxy].
  - constructor; [constructor; assumption | constructor; assumption].
  - constructor; [assumption |].
    apply insert_sorted_hd; [lra | assumption].
Qed.

Lemma sort_sorted (l : list R) : Sorted Rle (sort l).
Proof.
  induction l as [| x l IH]; simpl; [constructor |].
  now apply insert_sorted_sorted.
Qed.

Lemma length_sort (l : list R) : length (sort l) = length l.
Proof. symmetry. apply Permutation_length, sort_perm. Qed.

End JsFacts.

(** ** Facts about BeatDetector *)

Module BeatDetectorFacts.

Import Js JsFacts BeatDetector.
Local Open Scope R_scope.

(** *** One call of [update] *)

Lemma update_config (d : t) (e tm : R) :
  sensitivity (update d e tm) = sensitivity d /\
  decayRate (update d e tm) = decayRate d /\
  cooldownMs (update d e tm) = cooldownMs d /\
  historyLength (update d e tm) = historyLength d.
Proof.
  unfold update.
  destruct (length (pushEnergy d e) <? 10)%nat; [now simpl |].
  destruct (beatCondition d (pushEnergy d e) e tm); now simpl.
Qed.

Lemma update_history (d : t) (e tm : R) :
  energyHistory (update d e tm) = pushEnergy d e.
Proof.
  unfold update.
  destruct (length (pushEnergy d e) <? 10)%nat; [reflexivity |].
  destruct (beatCondition d (pushEnergy d e) e tm); reflexivity.
Qed.

(** A reported beat means that all three comparisons succeeded on a window
    of at least ten samples. *)
Lemma update_beat_inv (d : t) (e tm : R) :
  isBeat (update d e tm) = true ->
  (10 <= length (pushEnergy d e))%nat /\
  beatCondition d (pushEnergy d e) e tm = true.
Proof.
  unfold isBeat, update.
  destruct (length (pushEnergy d e) <? 10)%nat eqn:Hlen; [discriminate |].
  apply Nat.ltb_ge in Hlen.
  destruct (beatCondition d (pushEnergy d e) e tm); [auto | discriminate].
Qed.

Lemma beatCondition_inv (d : t) (h : list R) (e tm : R) :
  beatCondition d h e tm = true ->
  e > average h + sensitivity d * sqrt (variance h) /\
  e > average h * sensitivity d /\
  tm - lastBeatTime d > cooldownMs d.
Proof.
  unfold beatCondition. intros H.
  apply andb_prop in H as [H H3]. apply andb_prop in H as [H1 H2].
  rewrite gtb_true in H1, H2, H3. auto.
Qed.

Lemma update_lastBeatTime (d : t) (e tm : R) :
  lastBeatTime (update d e tm) =
  if isBeat (update d e tm) then tm else lastBeatTime d.
Proof.
  unfold isBeat, update.
  destruct (length (pushEnergy d e) <? 10)%nat; [reflexivity |].
  destruct (beatCondition d (pushEnergy d e) e tm); reflexivity.
Qed.

Lemma length_pushEnergy (d : t) (e : R) :
  (length (pushEnergy d e) <= S (length (energyHistory d)))%nat.
Proof.
  unfold pushEnergy, push, shift.
  destruct (gtb _ _).
  - destruct (energyHistory d); simpl; [lia |].
    rewrite length_app. simpl. lia.
  - rewrite length_app. simpl. lia.
Qed.

(** *** Sequences of calls *)

Lemma states_app (d : t) (xs ys : list (R * R)) :
  states d (xs ++ ys) = states d xs ++ states (run d xs) ys.
Proof.
  revert d. induction xs as [| c xs IH]; intros d; simpl; [reflexivity |].
  unfold run in *. simpl. now rewrite IH.
Qed.

Lemma length_states (d : t) (calls : list (R * R)) :
  length (states d calls) = length calls.
Proof.
  revert d. induction calls as [| c calls IH]; intros d; simpl; [reflexivity |].
  now rewrite IH.
Qed.

Lemma run_config (d : t) (calls : list (R * R)) :
  sensitivity (run d calls) = sensitivity d /\
  decayRate (run d calls) = decayRate d /\
  cooldownMs (run d calls) = cooldownMs d /\
  historyLength (run d calls) = historyLength d.
Proof.
  revert d. induction calls as [| c calls IH]; intros d; [now simpl |].
  unfold run in *. simpl.
  destruct (IH (update d (fst c) (snd c))) as (H1 & H2 & H3 & H4).
  destruct (update_config d (fst c) (snd c)) as (G1 & G2 & G3 & G4).
  repeat split; congruence.
Qed.

(** Every state of a run is the result of a call of [update] on a detector
    whose window has grown by at most one sample per earlier call. *)
Lemma states_lookup_update (calls : list (R * R)) :
  forall (d : t) (k : nat) (s : t),
    states d calls !! k = Some s ->
    exists (d' : t) (c : R * R),
      calls !! k = Some c /\ s = update d' (fst c) (snd c) /\
      (length (energyHistory d') <= length (energyHistory d) + k)%nat /\
      cooldownMs d' = cooldownMs d.
Proof.
  induction calls as [| c calls IH]; intros d k s Hk; [discriminate |].
  destruct k as [| k]; simpl in Hk.
  - injection Hk as <-. exists d, c. repeat split; simpl; lia.
  - apply IH in Hk as (d' & c' & Hc & Hs & Hlen & Hcd).
    exists d', c'. repeat split; auto.
    + rewrite update_history in Hlen.
      pose proof (length_pushEnergy d (fst c)). lia.
    + rewrite Hcd. apply update_config.
Qed.

(** A beat is later than any bound below the time of the last beat by more
    than the cooldown, provided no timestamp falls under the bound. *)
Lemma beat_exceeds_bound (calls : list (R * R)) :
  forall (d : t) (m : R),
    m <= lastBeatTime d ->
    Forall (fun c => m <= snd c) calls ->
    forall (j : nat) (sj : t) (cj : R * R),
      states d calls !! j = Some sj -> calls !! j = Some cj ->
      isBeat sj = true -> snd cj - m > cooldownMs d.
Proof.
  induction calls as [| c calls IH]; intros d m Hm Hall j sj cj Hs Hc Hb;
    [discriminate |].
  inversion Hall as [| ? ? Hc0 Hrest]; subst.
  destruct j as [| j]; simpl in Hs, Hc.
  - injection Hs as <-. injection Hc as <-.
    apply update_beat_inv in Hb as [_ Hb].
    apply beatCondition_inv in Hb as (_ & _ & Hb). lra.
  - destruct (update_config d (fst c) (snd c)) as (_ & _ & <- & _).
    apply (IH (update d (fst c) (snd c)) m) with (j := j) (sj := sj); auto.
    rewrite update_lastBeatTime.
    destruct (isBeat (update d (fst c) (snd c))); assumption.
Qed.

(** C3: on a freshly constructed or freshly reset detector, [isBeat()] is
    false after each of the first nine calls of [update] (fewer than ten
    samples pushed), whatever the energies and timestamps. *)
Theorem C3_no_beat_during_warmup :
  (forall (options : Options) (calls : list (R * R)) (k : nat) (s : t),
      states (new options) calls !! k = Some s -> (S k < 10)%nat ->
      isBeat s = false) /\
  (forall (d : t) (calls : list (R * R)) (k : nat) (s : t),
      states (reset d) calls !! k = Some s -> (S k < 10)%nat ->
      isBeat s = false).
Proof.
  assert (G : forall (d0 : t) (calls : list (R * R)) (k : nat) (s : t),
             energyHistory d0 = [] ->
             states d0 calls !! k = Some s -> (S k < 10)%nat ->
             isBeat s = false).
  { intros d0 calls k s H0 Hs Hk.
    apply states_lookup_update in Hs as (d' & c & _ & -> & Hlen & _).
    rewrite H0 in Hlen. simpl in Hlen.
    destruct (isBeat (update d' (fst c) (snd c))) eqn:Hb; [| reflexivity].
    apply update_beat_inv in Hb as [Hb _].
    pose proof (length_pushEnergy d' (fst c)). lia. }
  split.
  - intros options calls k s. apply (G (new options) calls k s eq_refl).
  - intros d calls k s. apply (G (reset d) calls k s eq_refl).
Qed.

Lemma C3_no_beat_during_warmup_witness :
  isBeat (update (new no_options) 1 1000) = false.
Proof.
  apply (proj1 C3_no_beat_during_warmup no_options [(1, 1000)] 0%nat).
  - reflexivity.
  - lia.
Defined.

(** C10: on a freshly constructed or freshly reset detector fed
    non-negative timestamps, an update whose timestamp is at most
    [cooldownMs] never reports a beat.  (That the timestamps are monotone
    is not needed.) *)
Theorem C10_no_beat_before_cooldown :
  (forall (options : Options) (calls : list (R * R)) (k : nat) (s : t) (c : R * R),
      Forall (fun c => 0 <= snd c) calls ->
      states (new options) calls !! k = Some s -> calls !! k = Some c ->
      snd c <= cooldownMs (new options) -> isBeat s = false) /\
  (forall (d : t) (calls : list (R * R)) (k : nat) (s : t) (c : R * R),
      Forall (fun c => 0 <= snd c) calls ->
      states (reset d) calls !! k = Some s -> calls !! k = Some c ->
      snd c <= cooldownMs (reset d) -> isBeat s = false).
Proof.
  assert (G : forall (d0 : t) (calls : list (R * R)) (k : nat) (s : t) (c : R * R),
             lastBeatTime d0 = 0 ->
             Forall (fun c => 0 <= snd c) calls ->
             states d0 calls !! k = Some s -> calls !! k = Some c ->
             snd c <= cooldownMs d0 -> isBeat s = false).
  { intros d0 calls k s c H0 Hall Hs Hc Hle.
    destruct (isBeat s) eqn:Hb; [| reflexivity].
    pose proof (beat_exceeds_bound calls d0 0) as H.
    specialize (H ltac:(rewrite H0; lra) Hall k s c Hs Hc Hb). lra. }
  split.
  - intros options calls k s c. apply (G (new options) calls k s c eq_refl).
  - intros d calls k s c. apply (G (reset d) calls k s c eq_refl).
Qed.

Lemma nondecreasing_cons (x : R) (ts : list R) :
  nondecreasing (x :: ts) -> Forall (Rle x) ts /\ nondecreasing ts.
Proof.
  unfold nondecreasing. intros H.
  apply Sorted_StronglySorted in H; [| intros a b c; apply Rle_trans].
  inversion H; subst. split; [assumption |].
  now apply StronglySorted_Sorted.
Qed.

(** C2: in a run with non-decreasing timestamps, two different updates
    that both report a beat have timestamps more than [cooldownMs] apart. *)
Theorem C2_beats_apart_by_cooldown :
  forall (d : t) (calls : list (R * R)) (i j : nat) (si sj : t) (ci cj : R * R),
    nondecreasing (map snd calls) ->
    (i < j)%nat ->
    states d calls !! i = Some si -> calls !! i = Some ci ->
    states d calls !! j = Some sj -> calls !! j = Some cj ->
    isBeat si = true -> isBeat sj = true ->
    snd cj - snd ci > cooldownMs d.
Proof.
  intros d calls. revert d.
  induction calls as [| c calls IH];
    intros d i j si sj ci cj Hmono Hij Hsi Hci Hsj Hcj Hbi Hbj; [discriminate |].
  simpl in Hmono. apply nondecreasing_cons in Hmono as [Hall Hmono].
  destruct (update_config d (fst c) (snd c)) as (_ & _ & Hcd & _).
  destruct j as [| j]; [lia |].
  simpl in Hsj, Hcj.
  destruct i as [| i]; simpl in Hsi, Hci.
  - injection Hsi as <-. injection Hci as <-.
    rewrite <- Hcd.
    apply (beat_exceeds_bound calls (update d (fst c) (snd c)) (snd c))
      with (j := j) (sj := sj); auto.
    + rewrite update_lastBeatTime, Hbi. lra.
    + apply List.Forall_forall. intros x Hx.
      rewrite List.Forall_forall in Hall. apply Hall. now apply List.in_map.
  - rewrite <- Hcd.
    apply (IH (update d (fst c) (snd c)) i j si sj); auto. lia.
Qed.

Lemma reachable_config (options : Options) (d : t) :
  reachable options d ->
  sensitivity d = sensitivity (new options) /\
  decayRate d = decayRate (new options) /\
  cooldownMs d = cooldownMs (new options) /\
  historyLength d = historyLength (new options).
Proof.
  induction 1 as [| d e tm _ IH | d _ IH]; [now simpl | | now simpl].
  destruct (update_config d e tm) as (H1 & H2 & H3 & H4).
  destruct IH as (G1 & G2 & G3 & G4).
  repeat split; congruence.
Qed.

Lemma reset_reachable (options : Options) (d : t) :
  reachable options d -> reset d = new options.
Proof.
  intros H. apply reachable_config in H as (H1 & H2 & H3 & H4).
  unfold reset. rewrite H1, H2, H3, H4. reflexivity.
Qed.

(** C6: after [reset()], a detector reached from [new BeatDetector(options)]
    shows the same [isBeat], [getBeatIntensity], [getBPM] and [getBeatCount]
    as a new detector with the same options, at once and after every call
    of any sequence of calls. *)
Theorem C6_reset_like_new :
  forall (options : Options) (d : t) (calls : list (R * R)),
    reachable options d ->
    observe (reset d) = observe (new options) /\
    outputs (reset d) calls = outputs (new options) calls.
Proof.
  intros options d calls H. now rewrite (reset_reachable options d H).
Qed.

Lemma C6_reset_like_new_witness :
  observe (reset (update (new no_options) 1 1000)) = observe (new no_options) /\
  outputs (reset (update (new no_options) 1 1000)) [(1, 2000)] =
  outputs (new no_options) [(1, 2000)].
Proof.
  apply (C6_reset_like_new no_options (update (new no_options) 1 1000)).
  apply reach_update, reach_new.
Defined.

(** C9: an option given as 0 (or left out) is replaced by the default,
    1.4, 0.93, 180 and 30 in turn; so a detector constructed with
    [cooldownMs: 0] is the detector constructed with [cooldownMs: 180],
    and gives the same outputs on every sequence of calls. *)
Theorem C9_falsy_option_gives_default :
  forall (s dr cd hl : value),
    sensitivity (new (mkOptions (num 0) dr cd hl)) = 1.4 /\
    decayRate (new (mkOptions s (num 0) cd hl)) = 0.93 /\
    cooldownMs (new (mkOptions s dr (num 0) hl)) = 180 /\
    historyLength (new (mkOptions s dr cd (num 0))) = 30 /\
    sensitivity (new (mkOptions undefined dr cd hl)) = 1.4 /\
    decayRate (new (mkOptions s undefined cd hl)) = 0.93 /\
    cooldownMs (new (mkOptions s dr undefined hl)) = 180 /\
    historyLength (new (mkOptions s dr cd undefined)) = 30 /\
    new (mkOptions s dr (num 0) hl) = new (mkOptions s dr (num 180) hl) /\
    forall calls : list (R * R),
      outputs (new (mkOptions s dr (num 0) hl)) calls =
      outputs (new (mkOptions s dr (num 180) hl)) calls.
Proof.
  intros s dr cd hl.
  assert (E : new (mkOptions s dr (num 0) hl) = new (mkOptions s dr (num 180) hl)).
  { unfold new. cbn [opt_sensitivity opt_decayRate opt_cooldownMs opt_historyLength].
    rewrite or_default_zero, or_default_truthy by lra. reflexivity. }
  unfold new at 1 2 3 4 5 6 7 8.
  cbn [sensitivity decayRate cooldownMs historyLength
       opt_sensitivity opt_decayRate opt_cooldownMs opt_historyLength].
  rewrite !or_default_zero, !or_default_undefined.
  repeat split; try assumption.
  intros calls. now rewrite E.
Qed.

(** *** The statistics of the window *)

Lemma sum_from (h : list R) (a : R) :
  fold_left (fun x y => x + y) h a = a + fold_left (fun x y => x + y) h 0.
Proof.
  revert a. induction h as [| x h IH]; intros a; simpl; [lra |].
  rewrite (IH (a + x)), (IH (0 + x)). lra.
Qed.

Lemma sum_nonneg (h : list R) :
  Forall (fun x => 0 <= x) h -> 0 <= fold_left (fun x y => x + y) h 0.
Proof.
  induction 1 as [| x h Hx _ IH]; simpl; [lra |].
  rewrite sum_from. lra.
Qed.

Lemma average_nonneg (h : list R) :
  Forall (fun x => 0 <= x) h -> 0 <= average h.
Proof.
  intros H. unfold average, Rdiv.
  apply Rmult_le_pos; [now apply sum_nonneg | apply Rinv_INR_nonneg].
Qed.

Lemma squares_from (h : list R) (m a : R) :
  0 <= a -> 0 <= fold_left (fun sq n => sq + (n - m) ^ 2) h a.
Proof.
  revert a. induction h as [| x h IH]; intros a Ha; simpl; [assumption |].
  apply IH. pose proof (pow2_ge_0 (x - m)). simpl in *. lra.
Qed.

Lemma variance_nonneg (h : list R) : 0 <= variance h.
Proof.
  unfold variance, Rdiv.
  apply Rmult_le_pos; [apply squares_from; lra | apply Rinv_INR_nonneg].
Qed.



(** *** The window after a push *)

Lemma pushEnergy_Forall (P : R -> Prop) (d : t) (e : R) :
  Forall P (energyHistory d) -> P e -> Forall P (pushEnergy d e).
Proof.
  intros Hh He. unfold pushEnergy, push, shift.
  assert (H : Forall P (energyHistory d ++ [e])).
  { apply Forall_app. split; [assumption | now constructor]. }
  destruct (gtb _ _); [| assumption].
  destruct (energyHistory d ++ [e]); [constructor | now inversion H].
Qed.

Lemma pushEnergy_fits (d : t) (e : R) :
  INR (S (length (energyHistory d))) <= historyLength d ->
  pushEnergy d e = energyHistory d ++ [e].
Proof.
  intros H. unfold pushEnergy, push.
  replace (length (energyHistory d ++ [e])) with (S (length (energyHistory d)))
    by (rewrite length_app; simpl; lia).
  apply gtb_false in H. now rewrite H.
Qed.


(** *** The three outcomes of [update] *)

Lemma update_warm (d : t) (e tm : R) :
  (length (pushEnergy d e) < 10)%nat ->
  update d e tm =
  mk (sensitivity d) (decayRate d) (cooldownMs d) (historyLength d)
     (pushEnergy d e) (lastBeatTime d) (beatIntensity d) false
     (beatCount d) (beatTimes d) (estimatedBPM d).
Proof.
  intros H. unfold update. apply Nat.ltb_lt in H. now rewrite H.
Qed.

Lemma update_quiet (d : t) (e tm : R) :
  (10 <= length (pushEnergy d e))%nat ->
  beatCondition d (pushEnergy d e) e tm = false ->
  update d e tm =
  mk (sensitivity d) (decayRate d) (cooldownMs d) (historyLength d)
     (pushEnergy d e) (lastBeatTime d) (beatIntensity d * decayRate d) false
     (beatCount d) (beatTimes d) (estimatedBPM d).
Proof.
  intros H Hb. unfold update. apply Nat.ltb_ge in H. now rewrite H, Hb.
Qed.

Lemma update_beat (d : t) (e tm : R) :
  (10 <= length (pushEnergy d e))%nat ->
  beatCondition d (pushEnergy d e) e tm = true ->
  update d e tm =
  let times := push (beatTimes d) tm in
  let times := if (16 <? length times)%nat then shift times else times in
  mk (sensitivity d) (decayRate d) (cooldownMs d) (historyLength d)
     (pushEnergy d e) tm
     (Rmin 1 ((e - average (pushEnergy d e)) / (average (pushEnergy d e) + 0.01))
      * decayRate d)
     true (S (beatCount d)) times
     (updateTempoEstimate times (estimatedBPM d)).
Proof.
  intros H Hb. unfold update. apply Nat.ltb_ge in H. now rewrite H, Hb.
Qed.

(** The three comparisons, read as propositions. *)
Lemma beatCondition_intro (d : t) (h : list R) (e tm : R) :
  e > average h + sensitivity d * sqrt (variance h) ->
  e > average h * sensitivity d ->
  tm - lastBeatTime d > cooldownMs d ->
  beatCondition d h e tm = true.
Proof.
  intros H1 H2 H3. unfold beatCondition.
  apply gtb_true in H1, H2, H3. now rewrite H1, H2, H3.
Qed.

Lemma beatCondition_threshold (d : t) (h : list R) (e tm : R) :
  e <= average h + sensitivity d * sqrt (variance h) ->
  beatCondition d h e tm = false.
Proof.
  intros H. unfold beatCondition. apply gtb_false in H. now rewrite H.
Qed.

(** *** A constant input *)






(** *** Silence *)

Lemma silent_update (d : t) (k : nat) (tm : R) :
  energyHistory d = repeat 0 k ->
  beatIntensity d = 0 ->
  0 <= sensitivity d ->
  INR (S k) <= historyLength d ->
  update d 0 tm =
  mk (sensitivity d) (decayRate d) (cooldownMs d) (historyLength d)
     (repeat 0 (S k)) (lastBeatTime d) 0 false
     (beatCount d) (beatTimes d) (estimatedBPM d).
Proof.
  intros Hh Hi Hs Hfit.
  assert (Hp : pushEnergy d 0 = repeat 0 (S k)).
  { rewrite pushEnergy_fits by (rewrite Hh, repeat_length; exact Hfit).
    rewrite Hh. symmetry. apply repeat_cons. }
  destruct (Nat.lt_ge_cases (length (pushEnergy d 0)) 10) as [Hlen | Hlen].
  - rewrite update_warm by exact Hlen. now rewrite Hp, Hi.
  - rewrite update_quiet; [rewrite Hp, Hi; f_equal; lra | exact Hlen |].
    apply beatCondition_threshold.
    assert (0 <= average (pushEnergy d 0)).
    { apply average_nonneg. rewrite Hp.
      apply List.Forall_forall. intros x Hx. apply repeat_spec in Hx. lra. }
    pose proof (sqrt_pos (variance (pushEnergy d 0))). nra.
Qed.

Lemma silent_run (calls : list (R * R)) :
  forall (d : t) (k : nat),
    energyHistory d = repeat 0 k ->
    beatIntensity d = 0 ->
    _isBeat d = false ->
    0 <= sensitivity d ->
    INR (k + length calls) <= historyLength d ->
    Forall (fun c => fst c = 0) calls ->
    run d calls =
    mk (sensitivity d) (decayRate d) (cooldownMs d) (historyLength d)
       (repeat 0 (k + length calls)) (lastBeatTime d) 0 false
       (beatCount d) (beatTimes d) (estimatedBPM d).
Proof.
  induction calls as [| c calls IH]; intros d k Hh Hi Hb Hs Hfit Hz.
  - destruct d; simpl in *. subst. now rewrite Nat.add_0_r.
  - inversion Hz as [| ? ? Hc Hrest]; subst.
    change (run d (c :: calls)) with (run (update d (fst c) (snd c)) calls).
    cbn [length] in *.
    rewrite Hc, (silent_update d k) by
      (try assumption; apply Rle_trans with (2 := Hfit); apply le_INR; lia).
    replace (k + S (length calls))%nat with (S k + length calls)%nat in * by lia.
    rewrite (IH _ (S k)); try reflexivity; assumption.
Qed.

Lemma frames_energies (t0 : R) (energies : list R) :
  map fst (frames t0 energies) = energies.
Proof.
  revert t0. induction energies as [| e r IH]; intros t0; simpl; [reflexivity |].
  now rewrite IH.
Qed.

Lemma length_frames (t0 : R) (energies : list R) :
  length (frames t0 energies) = length energies.
Proof. rewrite <- (frames_energies t0 energies) at 2. now rewrite length_map. Qed.

Lemma frames_app (t0 : R) (xs ys : list R) :
  frames t0 (xs ++ ys) =
  frames t0 xs ++ frames (t0 + 16 * INR (length xs)) ys.
Proof.
  revert t0. induction xs as [| x xs IH]; intros t0.
  - simpl. f_equal. lra.
  - cbn [app frames length]. rewrite IH, S_INR. do 3 f_equal. lra.
Qed.

Lemma frames_silent (t0 : R) (n : nat) :
  Forall (fun c => fst c = 0) (frames t0 (repeat 0 n)).
Proof.
  revert t0. induction n as [| n IH]; intros t0; simpl; constructor; auto.
Qed.

(** The detector after ten silent frames. *)
Lemma ten_silent_frames (options : Options) (t0 : R) :
  0 <= sensitivity (new options) ->
  10 <= historyLength (new options) ->
  run (new options) (frames t0 (repeat 0 10)) =
  mk (sensitivity (new options)) (decayRate (new options))
     (cooldownMs (new options)) (historyLength (new options))
     (repeat 0 10) 0 0 false 0 [] 0.
Proof.
  intros Hs Hl.
  rewrite (silent_run _ (new options) 0); try reflexivity; try assumption.
  - rewrite length_frames, repeat_length. simpl (INR _). lra.
  - apply frames_silent.
Qed.

(** *** Spikes *)

Lemma run_app (d : t) (xs ys : list (R * R)) :
  run d (xs ++ ys) = run (run d xs) ys.
Proof. apply fold_left_app. Qed.

Lemma frames_nondecreasing (energies : list R) (t0 : R) :
  nondecreasing (map snd (frames t0 energies)).
Proof.
  revert t0. induction energies as [| e r IH]; intros t0; simpl; [constructor |].
  constructor; [apply IH |].
  destruct r; simpl; constructor. lra.
Qed.

Lemma frames_Forall (P : R -> Prop) (energies : list R) (t0 : R) :
  Forall P energies -> Forall (fun c => P (fst c)) (frames t0 energies).
Proof.
  intros H. revert t0. induction H as [| e r He _ IH]; intros t0; simpl;
    constructor; auto.
Qed.

Lemma spike_range (n : nat) : Forall (fun e => 0 <= e <= 1) (spike n).
Proof.
  unfold spike. apply Forall_app. split; [| constructor; [lra |]];
    apply List.Forall_forall; intros x Hx; apply repeat_spec in Hx; lra.
Qed.

(** A sample of energy 1 is a beat when the window is not too spread out. *)
Lemma spike_condition (d : t) (h : list R) (tm : R) :
  variance h < 0.25 ->
  0 <= sensitivity d ->
  average h + sensitivity d * 0.5 < 1 ->
  average h * sensitivity d < 1 ->
  tm - lastBeatTime d > cooldownMs d ->
  beatCondition d h 1 tm = true.
Proof.
  intros Hv Hs Ha Hm Ht. apply beatCondition_intro; try lra.
  assert (sqrt (variance h) < 0.5) by (apply sqrt_lt_bound; lra).
  nra.
Qed.

Lemma new_no_options :
  new no_options = mk 1.4 0.93 180 30 [] 0 0 false 0 [] 0.
Proof. reflexivity. Qed.

Lemma new_doubling :
  new doubling = mk 1.4 2 180 30 [] 0 0 false 0 [] 0.
Proof.
  unfold new, doubling. cbn [opt_sensitivity opt_decayRate opt_cooldownMs opt_historyLength].
  rewrite (or_default_truthy 2) by lra. reflexivity.
Qed.

(** *** The range of the intensity *)

Lemma update_intensity_range (d : t) (e tm : R) :
  0 <= sensitivity d ->
  0 <= decayRate d <= 1 ->
  Forall (fun x => 0 <= x) (energyHistory d) ->
  0 <= e ->
  0 <= beatIntensity d <= 1 ->
  0 <= beatIntensity (update d e tm) <= 1.
Proof.
  intros Hs Hd Hh He Hi.
  destruct (Nat.lt_ge_cases (length (pushEnergy d e)) 10) as [Hlen | Hlen].
  - now rewrite update_warm.
  - destruct (beatCondition d (pushEnergy d e) e tm) eqn:Hb.
    + rewrite update_beat by assumption. cbn [beatIntensity].
      apply beatCondition_inv in Hb as (Hb & _ & _).
      assert (Ha : 0 <= average (pushEnergy d e))
        by now apply average_nonneg, pushEnergy_Forall.
      pose proof (sqrt_pos (variance (pushEnergy d e))) as Hq.
      assert (Hq' : 0 <= sensitivity d * sqrt (variance (pushEnergy d e)))
        by now apply Rmult_le_pos.
      set (a := average (pushEnergy d e)) in *.
      assert (Hr : 0 < (e - a) / (a + 0.01))
        by (apply Rdiv_lt_0_compat; lra).
      assert (Hm : 0 <= Rmin 1 ((e - a) / (a + 0.01)) <= 1).
      { split; [apply Rmin_glb; lra | apply Rmin_l]. }
      nra.
    + rewrite update_quiet by assumption. cbn [beatIntensity]. nra.
Qed.

Lemma run_intensity_range (calls : list (R * R)) :
  forall d : t,
    0 <= sensitivity d ->
    0 <= decayRate d <= 1 ->
    Forall (fun x => 0 <= x) (energyHistory d) ->
    0 <= beatIntensity d <= 1 ->
    Forall (fun c => 0 <= fst c <= 1) calls ->
    Forall (fun s => 0 <= getBeatIntensity s <= 1) (states d calls).
Proof.
  induction calls as [| c calls IH]; intros d Hs Hd Hh Hi Hc; simpl;
    [constructor |].
  inversion Hc as [| ? ? [Hc0 Hc1] Hrest]; subst.
  destruct (update_config d (fst c) (snd c)) as (E1 & E2 & _ & _).
  constructor.
  - now apply update_intensity_range.
  - apply IH; try assumption.
    + now rewrite E1.
    + now rewrite E2.
    + rewrite update_history. now apply pushEnergy_Forall.
    + now apply update_intensity_range.
Qed.

(** *** The warm-up *)

Lemma warm_run (calls : list (R * R)) :
  forall d : t,
    _isBeat d = false ->
    (length (energyHistory d) + length calls < 10)%nat ->
    10 <= historyLength d ->
    run d calls =
    mk (sensitivity d) (decayRate d) (cooldownMs d) (historyLength d)
       (energyHistory d ++ map fst calls) (lastBeatTime d) (beatIntensity d)
       false (beatCount d) (beatTimes d) (estimatedBPM d).
Proof.
  induction calls as [| c calls IH]; intros d Hb Hlen Hl.
  - destruct d; simpl in *. subst. now rewrite app_nil_r.
  - change (run d (c :: calls)) with (run (update d (fst c) (snd c)) calls).
    cbn [length map] in *.
    assert (Hp : pushEnergy d (fst c) = energyHistory d ++ [fst c]).
    { apply pushEnergy_fits. apply Rle_trans with (INR 10); [apply le_INR; lia |].
      simpl. lra. }
    rewrite update_warm by (rewrite Hp, length_app; simpl; lia).
    rewrite IH; cbn [_isBeat energyHistory historyLength]; rewrite ?Hp.
    + cbn. now rewrite <- app_assoc.
    + reflexivity.
    + rewrite length_app. simpl. lia.
    + assumption.
Qed.

(** With a negative [sensitivity] a sample below the average can be a beat,
    and the intensity becomes negative: [Math.min] bounds it from above
    only. *)
Lemma negative_sensitivity_negative_intensity :
  Forall (fun c => 0 <= fst c <= 1) dip /\
  nondecreasing (map snd dip) /\
  getBeatIntensity (run (new inverted) dip) < 0.
Proof.
  unfold dip.
  split.
  { apply (frames_Forall (fun e => 0 <= e <= 1)), Forall_app. split.
    - apply List.Forall_forall. intros x Hx. apply repeat_spec in Hx. lra.
    - constructor; [lra | constructor]. }
  split; [apply frames_nondecreasing |].
  assert (Hnew : new inverted = mk (-10) 0.93 180 30 [] 0 0 false 0 [] 0).
  { unfold new, inverted.
    cbn [opt_sensitivity opt_decayRate opt_cooldownMs opt_historyLength].
    rewrite (or_default_truthy (-10)) by lra. reflexivity. }
  rewrite frames_app, run_app, Hnew.
  rewrite (warm_run (frames 1000 (repeat 1 9)));
    [| reflexivity | rewrite length_frames, repeat_length; simpl; lia
     | simpl; lra ].
  rewrite frames_energies.
  cbn [sensitivity decayRate cooldownMs historyLength energyHistory
       lastBeatTime beatIntensity beatCount beatTimes estimatedBPM app
       frames run fold_left fst snd].
  set (d := mk _ _ _ _ (repeat 1 9) _ _ _ _ _ _).
  assert (Hp : pushEnergy d 0.5 = repeat 1 9 ++ [0.5]).
  { rewrite pushEnergy_fits; [reflexivity | simpl; lra]. }
  rewrite update_beat; rewrite Hp.
  - unfold getBeatIntensity. cbn [beatIntensity decayRate d].
    rewrite Rmin_right; unfold average; simpl; lra.
  - simpl. lia.
  - apply beatCondition_intro; cbn [sensitivity lastBeatTime cooldownMs d].
    + assert (0.1 < sqrt (variance (repeat 1 9 ++ [0.5]))).
      { apply sqrt_gt_bound; [lra |]. unfold variance, average. simpl. lra. }
      unfold average at 1. simpl fold_left. simpl INR. lra.
    + unfold average. simpl. lra.
    + rewrite repeat_length. simpl. lra.
Qed.


(** C1, as amended: for a detector whose [sensitivity] is not negative and
    whose [decayRate] lies in [0,1] (the defaults do), energies in [0,1] and
    non-decreasing timestamps keep [getBeatIntensity()] in [0,1] after every
    update. *)
Theorem C1_intensity_in_unit_interval :
  forall (options : Options) (calls : list (R * R)),
    0 <= sensitivity (new options) ->
    0 <= decayRate (new options) <= 1 ->
    Forall (fun c => 0 <= fst c <= 1) calls ->
    nondecreasing (map snd calls) ->
    Forall (fun s => 0 <= getBeatIntensity s <= 1) (states (new options) calls).
Proof.
  intros options calls Hs Hd Hc _.
  apply run_intensity_range; try assumption.
  - constructor.
  - simpl. lra.
Qed.

Lemma C1_intensity_in_unit_interval_witness :
  Forall (fun s => 0 <= getBeatIntensity s <= 1)
         (states (new no_options) (frames 1000 (spike 3))).
Proof.
  apply C1_intensity_in_unit_interval.
  - simpl. lra.
  - simpl. lra.
  - apply (frames_Forall (fun e => 0 <= e <= 1)), spike_range.
  - apply frames_nondecreasing.
Defined.

(** C1 as stated fails: with [decayRate: 2], ten silent frames and one
    spike leave the intensity at 2. *)
Lemma C1_counterexample :
  Forall (fun c => 0 <= fst c <= 1) (frames 1000 (spike 0)) /\
  nondecreasing (map snd (frames 1000 (spike 0))) /\
  getBeatIntensity (run (new doubling) (frames 1000 (spike 0))) = 2.
Proof.
  split; [apply (frames_Forall (fun e => 0 <= e <= 1)), spike_range |].
  split; [apply frames_nondecreasing |].
  unfold spike. rewrite frames_app, run_app.
  rewrite ten_silent_frames by (rewrite new_doubling; simpl; lra).
  rewrite new_doubling. cbn [sensitivity decayRate cooldownMs historyLength].
  cbn [repeat frames run fold_left fst snd].
  set (d := mk _ _ _ _ _ _ _ _ _ _ _).
  assert (Hp : pushEnergy d 1 = [0; 0; 0; 0; 0; 0; 0; 0; 0; 0; 1]).
  { rewrite pushEnergy_fits; [reflexivity | simpl; lra]. }
  rewrite update_beat; rewrite Hp.
  - unfold getBeatIntensity. cbn [beatIntensity decayRate d].
    rewrite Rmin_left; [lra |]. unfold average. simpl. lra.
  - simpl. lia.
  - apply spike_condition; unfold variance, average; simpl; lra.
Qed.

(** *** A silent frame *)








(** *** The tempo estimate *)

Ltac compare_reals :=
  repeat match goal with
    | |- context [gtb ?a ?b] =>
        first [ rewrite (proj2 (gtb_true a b)) by lra
              | rewrite (proj2 (gtb_false a b)) by lra ]
    | |- context [ltb ?a ?b] =>
        first [ rewrite (proj2 (ltb_true a b)) by lra
              | rewrite (proj2 (ltb_false a b)) by lra ]
    end.

Lemma intervals_from_filter (times : list R) (prev : R) :
  intervals_from prev times =
  List.filter TempoSpec.inOpenRange (TempoSpec.consecutive (prev :: times)).
Proof.
  revert prev. induction times as [| x times IH]; intros prev; [reflexivity |].
  cbn [intervals_from]. rewrite IH.
  unfold TempoSpec.consecutive. cbn [tl combine map fst snd List.filter].
  change (gtb (x - prev) 200 && ltb (x - prev) 2000)%bool
    with (TempoSpec.inOpenRange (x - prev)).
  destruct (TempoSpec.inOpenRange (x - prev)); reflexivity.
Qed.

Lemma intervals_filter (times : list R) :
  intervals times =
  List.filter TempoSpec.inOpenRange (TempoSpec.consecutive times).
Proof. destruct times; [reflexivity | apply intervals_from_filter]. Qed.

Lemma updateTempoEstimate_rounded (times : list R) (bpm : R) :
  updateTempoEstimate times bpm = TempoSpec.roundedTempo times bpm.
Proof.
  unfold updateTempoEstimate, TempoSpec.roundedTempo.
  rewrite <- intervals_filter.
  destruct (Nat.ltb_spec (length times) 4) as [H | H].
  - apply Nat.leb_gt in H. now rewrite H.
  - apply Nat.leb_le in H. rewrite H. cbn [andb].
    destruct (Nat.ltb_spec (length (intervals times)) 3) as [G | G].
    + apply Nat.leb_gt in G. now rewrite G.
    + apply Nat.leb_le in G. now rewrite G.
Qed.

Lemma reachable_beatTimes (options : Options) (d : t) :
  reachable options d -> (length (beatTimes d) <= 16)%nat.
Proof.
  induction 1 as [| d e tm _ IH | d _ IH]; [simpl; lia | | simpl; lia].
  unfold update.
  destruct (length (pushEnergy d e) <? 10)%nat; [exact IH |].
  destruct (beatCondition d (pushEnergy d e) e tm); [| exact IH].
  cbn [beatTimes]. unfold push, shift.
  destruct (Nat.ltb_spec 16 (length (beatTimes d ++ [tm]))) as [H | H]; [| lia].
  rewrite length_app in H. simpl in H.
  destruct (beatTimes d) as [| x l]; simpl in *; [lia |].
  rewrite length_app. simpl. lia.
Qed.

Lemma reachable_run (options : Options) (calls : list (R * R)) :
  forall d : t, reachable options d -> reachable options (run d calls).
Proof.
  induction calls as [| c calls IH]; intros d H; [exact H |].
  apply (IH (update d (fst c) (snd c))). now constructor.
Qed.

Lemma push_shift_lastN (times : list R) (tm : R) :
  (length times <= 16)%nat ->
  (if (16 <? length (push times tm))%nat
   then shift (push times tm) else push times tm) =
  TempoSpec.lastN 16 (times ++ [tm]).
Proof.
  intros H. unfold push, shift, TempoSpec.lastN.
  rewrite length_app. cbn [length].
  destruct (Nat.ltb_spec 16 (length times + 1)) as [G | G].
  - replace (length times + 1 - 16)%nat with 1%nat by lia.
    destruct (times ++ [tm]); reflexivity.
  - replace (length times + 1 - 16)%nat with 0%nat by lia. reflexivity.
Qed.

(** C5, as amended: when an update records a beat, the beat times become
    the last at most 16 and [getBPM()] is recomputed from them: the
    differences of neighbouring beat times strictly between 200 and 2000 are
    kept, and if there are at least 4 beat times and at least 3 such
    intervals the estimate becomes 60000 divided by the middle one (index
    half the count, rounded down, in ascending order), rounded to the nearest
    integer; otherwise, and when no beat is recorded, [getBPM()] keeps its
    value. *)
Theorem C5_tempo_estimate :
  forall (options : Options) (d : t) (e tm : R),
    reachable options d ->
    let d' := update d e tm in
    (isBeat d' = false -> getBPM d' = getBPM d /\ beatTimes d' = beatTimes d) /\
    (isBeat d' = true ->
       beatTimes d' = TempoSpec.lastN 16 (beatTimes d ++ [tm]) /\
       getBPM d' = TempoSpec.roundedTempo (beatTimes d') (getBPM d)).
Proof.
  intros options d e tm Hr d'. apply reachable_beatTimes in Hr.
  subst d'. unfold isBeat, getBPM, update.
  destruct (length (pushEnergy d e) <? 10)%nat;
    [split; [auto | discriminate] |].
  destruct (beatCondition d (pushEnergy d e) e tm);
    cbn [_isBeat estimatedBPM beatTimes]; (split; [auto; discriminate |]);
    [| discriminate].
  intros _. rewrite updateTempoEstimate_rounded.
  now rewrite push_shift_lastN.
Qed.

(** *** Four spikes in a row *)

(** One spike on a default detector whose window still has room. *)
Lemma spike_step (d : t) (tm : R) (h : list R) :
  sensitivity d = 1.4 /\ cooldownMs d = 180 /\ historyLength d = 30 ->
  energyHistory d = h ->
  (9 <= length h < 20)%nat ->
  variance (h ++ [1]) < 0.25 ->
  average (h ++ [1]) < 0.3 ->
  tm - lastBeatTime d > 180 ->
  (length (beatTimes d) < 16)%nat ->
  (sensitivity (update d 1 tm) = 1.4 /\ cooldownMs (update d 1 tm) = 180 /\
   historyLength (update d 1 tm) = 30) /\
  isBeat (update d 1 tm) = true /\
  energyHistory (update d 1 tm) = h ++ [1] /\
  lastBeatTime (update d 1 tm) = tm /\
  beatTimes (update d 1 tm) = beatTimes d ++ [tm] /\
  estimatedBPM (update d 1 tm) =
    updateTempoEstimate (beatTimes d ++ [tm]) (estimatedBPM d).
Proof.
  intros (Hs & Hc & Hl) Hh Hlen Hv Ha Ht Hbt.
  assert (Hp : pushEnergy d 1 = h ++ [1]).
  { rewrite pushEnergy_fits; [now rewrite Hh |].
    rewrite Hl, Hh. apply Rle_trans with (INR 30); [apply le_INR; lia |].
    simpl. lra. }
  rewrite update_beat; rewrite Hp.
  - assert (Hfit : (16 <? length (push (beatTimes d) tm))%nat = false).
    { apply Nat.ltb_ge. unfold push. rewrite length_app. simpl. lia. }
    cbn zeta. rewrite Hfit. cbn. unfold push. repeat split; assumption || reflexivity.
  - rewrite length_app. simpl. lia.
  - apply spike_condition; rewrite ?Hs, ?Hc; lra.
Qed.

Lemma three_spikes :
  exists s1 s2 s3 : t,
    states (new no_options) threeSpikes =
      states (new no_options) (frames 840 (repeat 0 10)) ++ [s1; s2; s3] /\
    run (new no_options) threeSpikes = s3 /\
    isBeat s1 = true /\ isBeat s2 = true /\ isBeat s3 = true /\
    (sensitivity s3 = 1.4 /\ cooldownMs s3 = 180 /\ historyLength s3 = 30) /\
    energyHistory s3 = repeat 0 10 ++ [1; 1; 1] /\
    lastBeatTime s3 = 2400 /\
    beatTimes s3 = [1000; 1700; 2400] /\
    estimatedBPM s3 = 0.
Proof.
  unfold threeSpikes. rewrite states_app, run_app.
  rewrite ten_silent_frames by (simpl; lra).
  rewrite new_no_options. cbn [sensitivity decayRate cooldownMs historyLength].
  set (d := mk _ _ _ _ (repeat 0 10) _ _ _ _ _ _).
  cbn [states run fold_left fst snd].
  destruct (spike_step d 1000 (repeat 0 10))
    as (C1 & B1 & H1 & L1 & T1 & E1);
    try (unfold variance, average; simpl; lra); try (simpl; lia); auto.
  destruct (spike_step (update d 1 1000) 1700 (repeat 0 10 ++ [1]))
    as (C2 & B2 & H2 & L2 & T2 & E2);
    try (unfold variance, average; simpl; lra);
    try (rewrite ?T1; simpl; lia); try (rewrite L1; lra); auto.
  destruct (spike_step (update (update d 1 1000) 1 1700) 2400
              ((repeat 0 10 ++ [1]) ++ [1]))
    as (C3 & B3 & H3 & L3 & T3 & E3);
    try (unfold variance, average; simpl; lra);
    try (rewrite ?T2, ?T1; simpl; lia); try (rewrite L2; lra); auto.
  do 3 eexists. split; [reflexivity |]. split; [reflexivity |].
  split; [exact B1 |]. split; [exact B2 |]. split; [exact B3 |].
  split; [exact C3 |].
  split; [rewrite H3; reflexivity |].
  split; [exact L3 |].
  split; [rewrite T3, T2, T1; reflexivity |].
  rewrite E3, E2, E1, T2, T1. reflexivity.
Qed.

Lemma tempo_of_four_spikes :
  updateTempoEstimate [1000; 1700; 2400; 3100] 0 = 86.
Proof.
  unfold updateTempoEstimate, intervals. cbn [length Nat.ltb Nat.leb intervals_from].
  compare_reals. cbn [andb length Nat.ltb Nat.leb].
  apply (Math_round_spec _ 86).
  unfold medianInterval. cbn [length Nat.div Nat.divmod fst sort insert_sorted].
  repeat (match goal with
          | |- context [Rle_dec ?a ?b] => destruct (Rle_dec a b)
          end; cbn [insert_sorted nth]); lra.
Qed.

Lemma stated_tempo_of_four_spikes :
  TempoSpec.statedTempo [1000; 1700; 2400; 3100] 0 = 60000 / 700.
Proof.
  unfold TempoSpec.statedTempo, TempoSpec.consecutive, TempoSpec.inClosedRange.
  cbn [tl combine map fst snd List.filter].
  compare_reals. cbn [negb andb List.filter length Nat.leb].
  unfold medianInterval. cbn [length Nat.div Nat.divmod fst sort insert_sorted].
  repeat (match goal with
          | |- context [Rle_dec ?a ?b] => destruct (Rle_dec a b)
          end; cbn [insert_sorted nth]); lra.
Qed.

(** An interval of exactly 200 ms is dropped by the code and kept by the
    closed range. *)
Lemma tempo_boundary_dropped :
  updateTempoEstimate [1000; 1200; 1400; 1600] 0 = 0 /\
  TempoSpec.statedTempo [1000; 1200; 1400; 1600] 0 = 300.
Proof.
  split.
  - unfold updateTempoEstimate, intervals.
    cbn [length Nat.ltb Nat.leb intervals_from].
    compare_reals. reflexivity.
  - unfold TempoSpec.statedTempo, TempoSpec.consecutive, TempoSpec.inClosedRange.
    cbn [tl combine map fst snd List.filter].
    compare_reals. cbn [negb andb List.filter length Nat.leb].
    unfold medianInterval. cbn [length Nat.div Nat.divmod fst sort insert_sorted].
    repeat (match goal with
            | |- context [Rle_dec ?a ?b] => destruct (Rle_dec a b)
            end; cbn [insert_sorted nth]); lra.
Qed.


(** C5 as stated fails on the rounding: after three spikes 700 ms apart a
    fourth one is a beat, and [getBPM()] becomes 86, not 60000 / 700. *)
Lemma C5_counterexample :
  reachable no_options (run (new no_options) threeSpikes) /\
  isBeat (update (run (new no_options) threeSpikes) 1 3100) = true /\
  beatTimes (update (run (new no_options) threeSpikes) 1 3100) =
    [1000; 1700; 2400; 3100] /\
  getBPM (update (run (new no_options) threeSpikes) 1 3100) <>
    TempoSpec.statedTempo
      (beatTimes (update (run (new no_options) threeSpikes) 1 3100))
      (getBPM (run (new no_options) threeSpikes)).
Proof.
  split; [apply reachable_run, reach_new |].
  destruct three_spikes as (s1 & s2 & s3 & _ & -> & _ & _ & _ & C & H & L & T & E).
  destruct (spike_step s3 3100 (repeat 0 10 ++ [1; 1; 1]))
    as (_ & B4 & _ & _ & T4 & E4);
    try (unfold variance, average; simpl; lra);
    try (rewrite ?T; simpl; lia); try (rewrite L; lra); auto.
  rewrite T in T4. cbn [app] in T4.
  split; [exact B4 |]. split; [exact T4 |].
  unfold getBPM. rewrite E4, T4, T, E. cbn [app].
  rewrite tempo_of_four_spikes, stated_tempo_of_four_spikes. lra.
Qed.

Lemma C5_tempo_estimate_witness :
  let d := run (new no_options) threeSpikes in
  let d' := update d 1 3100 in
  (isBeat d' = false -> getBPM d' = getBPM d /\ beatTimes d' = beatTimes d) /\
  (isBeat d' = true ->
     beatTimes d' = TempoSpec.lastN 16 (beatTimes d ++ [3100]) /\
     getBPM d' = TempoSpec.roundedTempo (beatTimes d') (getBPM d)).
Proof.
  apply (C5_tempo_estimate no_options (run (new no_options) threeSpikes) 1 3100).
  apply reachable_run, reach_new.
Defined.

Ltac sorted_reals :=
  repeat first [ apply Sorted_nil | apply Sorted_cons
               | apply HdRel_nil | apply HdRel_cons ];
  lra.

(** The first two spikes of [threeSpikes] are the calls number 10 and 11;
    both are beats, 700 ms apart. *)
Lemma C2_beats_apart_by_cooldown_witness :
  1700 - 1000 > cooldownMs (new no_options).
Proof.
  destruct three_spikes as (s1 & s2 & s3 & Hs & _ & B1 & B2 & _).
  assert (Hlen : length (states (new no_options) (frames 840 (repeat 0 10))) = 10%nat)
    by now rewrite length_states, length_frames, repeat_length.
  apply (C2_beats_apart_by_cooldown (new no_options) threeSpikes
           10 11 s1 s2 (1, 1000) (1, 1700)).
  - unfold nondecreasing, threeSpikes. cbn [repeat frames app map snd].
    sorted_reals.
  - lia.
  - rewrite Hs, lookup_app_r by lia. now rewrite Hlen.
  - reflexivity.
  - rewrite Hs, lookup_app_r by lia. now rewrite Hlen.
  - reflexivity.
  - exact B1.
  - exact B2.
Defined.

Lemma states_last (calls : list (R * R)) (c : R * R) :
  forall d : t,
    states d (calls ++ [c]) !! length calls = Some (run d (calls ++ [c])).
Proof.
  induction calls as [| x calls IH]; intros d; [reflexivity |].
  apply (IH (update d (fst x) (snd x))).
Qed.

(** Started at time 0, the spike of the eleventh frame comes at 160 ms and
    is no beat. *)
Lemma C10_no_beat_before_cooldown_witness :
  isBeat (run (new no_options) (frames 0 (spike 0))) = false.
Proof.
  apply (proj1 C10_no_beat_before_cooldown no_options (frames 0 (spike 0))
           10%nat _ (1, 0 + 16 + 16 + 16 + 16 + 16 + 16 + 16 + 16 + 16 + 16)).
  - cbn [spike repeat app frames].
    repeat (apply Forall_cons; [simpl; lra |]). apply Forall_nil.
  - apply (states_last (frames 0 (repeat 0 10))).
  - reflexivity.
  - simpl. lra.
Defined.

End BeatDetectorFacts.

(** ** Facts about DemoRunner *)

Module DemoRunnerFacts.

Import DemoRunner.

Lemma start_constructed (C : DemoClass) (cv : nat) (options : gmap string Js.value) :
  let demo := start (construct C cv options) in
  demoClass demo = C /\ demoCanvas demo = cv /\
  isRunning demo = true /\ listening demo = true /\
  initCalls demo = 1%nat /\ frameRequests demo = 1%nat.
Proof. simpl. repeat split. Qed.



Lemma stop_fields (r : t) :
  registry (stop r) = registry r /\ canvas (stop r) = canvas r /\
  currentDemo (stop r) = None.
Proof. unfold stop. destruct (currentDemo r) eqn:E; simpl; auto. Qed.




End DemoRunnerFacts.

(** ** The beat decision in double precision: constant input *)

Module BeatDetector64Facts.

Import PrimFloat BeatDetector64.
Local Open Scope float_scope.
Local Set Warnings "-inexact-float".

(** Ten samples of 0.1 add up to less than 1: their mean, as [update]
    computes it, is below 0.1. *)
Lemma mean_of_ten_tenths :
  average (repeat 0.1 10) = 0.09999999999999999 /\
  (average (repeat 0.1 10) <? 0.1) = true.
Proof. split; vm_compute; reflexivity. Qed.


(** With a sensitivity of exactly 1 a constant input can still beat: for a
    tiny energy the squares of the variance underflow to 0 and the
    threshold is the rounded mean. *)
Lemma constant_beat_at_sensitivity_one :
  beats (new (mkOptions (Some 1) None None))
        (steady 10 0x1.3333333333333p-560 1000) =
  [false; false; false; false; false; false; false; false; false; true].
Proof. vm_compute. reflexivity. Qed.

(** The default detector stays silent on the same two inputs. *)
Lemma default_silent_on_constant :
  beats (new (mkOptions None None None)) (steady 40 0.1 1000) =
    repeat false 40 /\
  beats (new (mkOptions None None None))
        (steady 40 0x1.3333333333333p-560 1000) = repeat false 40.
Proof. split; vm_compute; reflexivity. Qed.

End BeatDetector64Facts.


(** ** Further facts about BeatDetector *)

Module BeatDetectorMore.

Import Js JsFacts BeatDetector BeatDetectorFacts.
Local Open Scope R_scope.

(** *** The size of the window *)

Lemma pushEnergy_capped (d : t) (e : R) :
  INR (length (energyHistory d)) <= Rmax 0 (historyLength d) ->
  INR (length (pushEnergy d e)) <= Rmax 0 (historyLength d).
Proof.
  intros H. unfold pushEnergy, push, shift.
  destruct (gtb _ _) eqn:G.
  - destruct (energyHistory d) as [| x h]; [simpl in *; exact H |].
    cbn [app tl]. rewrite length_app. cbn [length] in *.
    replace (length h + 1)%nat with (S (length h)) by lia. exact H.
  - apply gtb_false in G. apply Rle_trans with (1 := G), Rmax_r.
Qed.

Lemma reachable_window_capped (options : Options) (d : t) :
  reachable options d ->
  INR (length (energyHistory d)) <= Rmax 0 (historyLength d).
Proof.
  intros H. induction H as [| d e tm _ IH | d _ IH].
  - simpl. apply Rmax_l.
  - rewrite update_history.
    destruct (update_config d e tm) as (_ & _ & _ & ->).
    now apply pushEnergy_capped.
  - simpl. apply Rmax_l.
Qed.

(** X1: the energy window never holds more samples than [historyLength]
    (none at all when [historyLength] is negative), in any detector reached
    from the constructor by calls of [update] and [reset]. *)
Theorem X1_window_capped :
  forall (options : Options) (d : t),
    reachable options d ->
    INR (length (energyHistory d)) <= Rmax 0 (historyLength d).
Proof.
  intros options d H.
  induction H as [| d e tm _ IH | d _ IH].
  - simpl. apply Rmax_l.
  - rewrite update_history.
    destruct (update_config d e tm) as (_ & _ & _ & ->).
    now apply pushEnergy_capped.
  - simpl. apply Rmax_l.
Qed.

Lemma X1_window_capped_witness :
  INR (length (energyHistory (update (new no_options) 1 1000))) <=
  Rmax 0 (historyLength (update (new no_options) 1 1000)).
Proof.
  apply (X1_window_capped no_options). apply reach_update, reach_new.
Defined.

(** X2: a detector constructed with a [historyLength] below 10 never
    reports a beat: its window cannot reach the ten samples that [update]
    asks for. *)
Theorem X2_short_window_never_beats :
  forall (options : Options) (d : t),
    historyLength (new options) < 10 ->
    reachable options d ->
    isBeat d = false.
Proof.
  intros options d Hl H.
  destruct H as [| d e tm H | d H]; [reflexivity | | reflexivity].
  destruct (isBeat (update d e tm)) eqn:Hb; [| reflexivity].
  apply update_beat_inv in Hb as [Hlen _].
  pose proof (reachable_window_capped options _ (reach_update options d e tm H)) as Hcap.
  rewrite update_history in Hcap.
  destruct (update_config d e tm) as (_ & _ & _ & E). rewrite E in Hcap.
  destruct (reachable_config options d H) as (_ & _ & _ & E'). rewrite E' in Hcap.
  apply le_INR in Hlen.
  assert (E10 : INR 10 = 10) by (simpl; lra). rewrite E10 in Hlen.
  unfold Rmax in Hcap. destruct (Rle_dec 0 (historyLength (new options))); lra.
Qed.

Lemma X2_short_window_never_beats_witness :
  isBeat (run (new (mkOptions undefined undefined undefined (num 5)))
              (frames 1000 (spike 3))) = false.
Proof.
  apply (X2_short_window_never_beats
           (mkOptions undefined undefined undefined (num 5))).
  - unfold new. cbn [historyLength opt_historyLength].
    rewrite or_default_truthy by lra. lra.
  - apply reachable_run, reach_new.
Defined.

(** *** The beat counter and the stored beat times *)

Lemma update_beatCount (d : t) (e tm : R) :
  beatCount (update d e tm) =
  if isBeat (update d e tm) then S (beatCount d) else beatCount d.
Proof.
  unfold isBeat, update.
  destruct (length (pushEnergy d e) <? 10)%nat; [reflexivity |].
  destruct (beatCondition d (pushEnergy d e) e tm); reflexivity.
Qed.

(** X3: over any sequence of calls, [getBeatCount()] grows by the number of
    updates after which [isBeat()] was true. *)
Theorem X3_beatCount_counts_beats :
  forall (d : t) (calls : list (R * R)),
    getBeatCount (run d calls) =
    (getBeatCount d + length (List.filter isBeat (states d calls)))%nat.
Proof.
  intros d calls. revert d.
  induction calls as [| c calls IH]; intros d; [simpl; lia |].
  change (run d (c :: calls)) with (run (update d (fst c) (snd c)) calls).
  rewrite IH. cbn [states List.filter].
  unfold getBeatCount. rewrite update_beatCount.
  destruct (isBeat (update d (fst c) (snd c))); simpl; lia.
Qed.

Lemma update_beatTimes (d : t) (e tm : R) :
  beatTimes (update d e tm) =
  if isBeat (update d e tm) then
    if (16 <? length (push (beatTimes d) tm))%nat
    then shift (push (beatTimes d) tm) else push (beatTimes d) tm
  else beatTimes d.
Proof.
  unfold isBeat, update.
  destruct (length (pushEnergy d e) <? 10)%nat; [reflexivity |].
  destruct (beatCondition d (pushEnergy d e) e tm); reflexivity.
Qed.

(** X4: in every detector reached from the constructor, the stored beat
    times are as many as the beats counted, up to 16, and the newest of them
    is [lastBeatTime]; before the first beat [lastBeatTime] is 0. *)
Theorem X4_beatTimes_track_beats :
  forall (options : Options) (d : t),
    reachable options d ->
    length (beatTimes d) = Nat.min 16 (getBeatCount d) /\
    match list.last (beatTimes d) with
    | Some tm => lastBeatTime d = tm
    | None => lastBeatTime d = 0 /\ getBeatCount d = 0%nat
    end.
Proof.
  intros options d H. unfold getBeatCount.
  induction H as [| d e tm _ [IHl IHt] | d _ IH]; [simpl; auto | | simpl; auto].
  rewrite update_beatTimes, update_beatCount, update_lastBeatTime.
  destruct (isBeat (update d e tm)); [| auto].
  unfold push, shift.
  destruct (Nat.ltb_spec 16 (length (beatTimes d ++ [tm]))) as [G | G];
    rewrite length_app in G; cbn [length] in G.
  - destruct (beatTimes d) as [| x l]; [simpl in G; lia |].
    cbn [app tl]. rewrite length_app, last_snoc. cbn [length] in *.
    split; [lia | reflexivity].
  - rewrite length_app, last_snoc. cbn [length].
    split; [lia | reflexivity].
Qed.

Lemma X4_beatTimes_track_beats_witness :
  length (beatTimes (run (new no_options) threeSpikes)) =
    Nat.min 16 (getBeatCount (run (new no_options) threeSpikes)) /\
  match list.last (beatTimes (run (new no_options) threeSpikes)) with
  | Some tm => lastBeatTime (run (new no_options) threeSpikes) = tm
  | None => lastBeatTime (run (new no_options) threeSpikes) = 0 /\
            getBeatCount (run (new no_options) threeSpikes) = 0%nat
  end.
Proof.
  apply (X4_beatTimes_track_beats no_options).
  apply reachable_run, reach_new.
Defined.


(** *** The range of the tempo estimate *)

Lemma intervals_from_valid (times : list R) (prev : R) :
  Forall (fun i => 200 < i < 2000) (intervals_from prev times).
Proof.
  revert prev. induction times as [| x times IH]; intros prev; simpl;
    [constructor |].
  destruct (gtb (x - prev) 200) eqn:G, (ltb (x - prev) 2000) eqn:L; simpl;
    try apply IH.
  apply gtb_true in G. apply ltb_true in L. constructor; [lra | apply IH].
Qed.

Lemma intervals_valid (times : list R) :
  Forall (fun i => 200 < i < 2000) (intervals times).
Proof. destruct times; [constructor | apply intervals_from_valid]. Qed.

(** The median is one of the intervals. *)
Lemma medianInterval_In (ivs : list R) :
  ivs <> [] -> In (medianInterval ivs) ivs.
Proof.
  intros Hne. unfold medianInterval.
  apply Permutation_in with (l := sort ivs);
    [symmetry; apply sort_perm |].
  apply nth_In. rewrite length_sort.
  destruct ivs; [contradiction |]. cbn [length].
  apply Nat.div_lt; lia.
Qed.

Lemma Math_round_between (x : R) (lo hi : Z) :
  IZR lo <= x <= IZR hi ->
  exists z : Z, Math_round x = IZR z /\ (lo <= z <= hi)%Z.
Proof.
  intros [Hlo Hhi]. unfold Math_round. exists (Int_part (x + / 2)).
  split; [reflexivity |].
  destruct (base_Int_part (x + / 2)) as [H1 H2].
  split.
  - apply Z.lt_succ_r, lt_IZR. rewrite succ_IZR. lra.
  - apply Z.lt_succ_r, lt_IZR. rewrite succ_IZR. lra.
Qed.

Lemma updateTempoEstimate_range (times : list R) (bpm : R) :
  updateTempoEstimate times bpm = bpm \/
  exists z : Z, updateTempoEstimate times bpm = IZR z /\ (30 <= z <= 300)%Z.
Proof.
  unfold updateTempoEstimate.
  destruct (length times <? 4)%nat; [now left |].
  destruct (length (intervals times) <? 3)%nat eqn:G; [now left |].
  right. apply Nat.ltb_ge in G.
  assert (Hne : intervals times <> [])
    by (destruct (intervals times); [simpl in G; lia | discriminate]).
  pose proof (medianInterval_In _ Hne) as Hin.
  pose proof (intervals_valid times) as Hall.
  rewrite List.Forall_forall in Hall. apply Hall in Hin.
  set (m := medianInterval (intervals times)) in *.
  apply Math_round_between.
  assert (Hm : 0 < / m) by (apply Rinv_0_lt_compat; lra).
  unfold Rdiv. split.
  - apply Rmult_le_reg_r with m; [lra |].
    rewrite Rmult_assoc, Rinv_l by lra. lra.
  - apply Rmult_le_reg_r with m; [lra |].
    rewrite Rmult_assoc, Rinv_l by lra. lra.
Qed.

Lemma update_estimatedBPM (d : t) (e tm : R) :
  estimatedBPM (update d e tm) =
  if isBeat (update d e tm)
  then updateTempoEstimate (beatTimes (update d e tm)) (estimatedBPM d)
  else estimatedBPM d.
Proof.
  unfold isBeat, update.
  destruct (length (pushEnergy d e) <? 10)%nat; [reflexivity |].
  destruct (beatCondition d (pushEnergy d e) e tm); reflexivity.
Qed.

(** X5: in every detector reached from the constructor, [getBPM()] is an
    integer, either 0 (no estimate yet) or between 30 and 300. *)
Theorem X5_bpm_is_zero_or_30_to_300 :
  forall (options : Options) (d : t),
    reachable options d ->
    exists z : Z, getBPM d = IZR z /\ (z = 0 \/ 30 <= z <= 300)%Z.
Proof.
  intros options d H. unfold getBPM.
  induction H as [| d e tm _ IH | d _ IH].
  - exists 0%Z. simpl. auto.
  - rewrite update_estimatedBPM.
    destruct (isBeat (update d e tm)); [| exact IH].
    destruct (updateTempoEstimate_range (beatTimes (update d e tm)) (estimatedBPM d))
      as [-> | (z & -> & Hz)]; [exact IH |].
    exists z. auto.
  - exists 0%Z. simpl. auto.
Qed.

Lemma X5_bpm_is_zero_or_30_to_300_witness :
  exists z : Z,
    getBPM (update (run (new no_options) threeSpikes) 1 3100) = IZR z /\
    (z = 0 \/ 30 <= z <= 300)%Z.
Proof.
  apply (X5_bpm_is_zero_or_30_to_300 no_options).
  apply reach_update, reachable_run, reach_new.
Defined.


(** *** Evenly spaced beats *)

Lemma consecutive_cons (a b : R) (l : list R) :
  TempoSpec.consecutive (a :: b :: l) = (b - a) :: TempoSpec.consecutive (b :: l).
Proof. reflexivity. Qed.

Lemma length_consecutive (l : list R) :
  length (TempoSpec.consecutive l) = pred (length l).
Proof.
  destruct l as [| a l]; [reflexivity |]. revert a.
  induction l as [| b l IH]; intros a; [reflexivity |].
  rewrite consecutive_cons. cbn [length]. rewrite IH. reflexivity.
Qed.

Lemma consecutive_tl (P : R -> Prop) (l : list R) :
  Forall P (TempoSpec.consecutive l) -> Forall P (TempoSpec.consecutive (tl l)).
Proof.
  destruct l as [| a [| b l]]; try (intros _; constructor).
  rewrite consecutive_cons. intros H. now inversion H.
Qed.

Lemma consecutive_skipn (P : R -> Prop) (n : nat) :
  forall l : list R,
    Forall P (TempoSpec.consecutive l) ->
    Forall P (TempoSpec.consecutive (skipn n l)).
Proof.
  induction n as [| n IH]; intros l H; [exact H |].
  destruct l as [| a l]; [exact H |].
  cbn [skipn]. apply IH. now apply (consecutive_tl P (a :: l)).
Qed.

Lemma filter_all (f : R -> bool) (l : list R) :
  Forall (fun i => f i = true) l -> List.filter f l = l.
Proof. induction 1 as [| i l Hi _ IH]; simpl; [reflexivity | now rewrite Hi, IH]. Qed.

(** Beat times that are evenly spaced by a period within the accepted range
    give the tempo of that period. *)
Lemma even_spacing_tempo (times : list R) (p bpm : R) :
  (4 <= length times)%nat ->
  200 < p < 2000 ->
  Forall (fun i => i = p) (TempoSpec.consecutive times) ->
  updateTempoEstimate times bpm = Math_round (60000 / p).
Proof.
  intros Hlen Hp Hall.
  rewrite updateTempoEstimate_rounded. unfold TempoSpec.roundedTempo.
  rewrite filter_all.
  - rewrite length_consecutive.
    replace (4 <=? length times)%nat with true by (symmetry; now apply Nat.leb_le).
    replace (3 <=? pred (length times))%nat with true
      by (symmetry; apply Nat.leb_le; lia).
    cbn [andb].
    assert (Hne : TempoSpec.consecutive times <> []).
    { intros E. pose proof (length_consecutive times) as L.
      rewrite E in L. simpl in L. lia. }
    pose proof (medianInterval_In _ Hne) as Hin.
    rewrite List.Forall_forall in Hall. now rewrite (Hall _ Hin).
  - apply List.Forall_forall. intros i Hi.
    rewrite List.Forall_forall in Hall. rewrite (Hall _ Hi).
    unfold TempoSpec.inOpenRange.
    rewrite (proj2 (gtb_true p 200)), (proj2 (ltb_true p 2000)) by lra.
    reflexivity.
Qed.

(** X6: when a beat is recorded and the stored beat times, with the new
    one, are at least four and evenly spaced by a period [p] strictly
    between 200 and 2000 ms, [getBPM()] becomes 60000 / p rounded to the
    nearest integer; for the 600 ms of an impulse train at 100 BPM it
    becomes 100. *)
Theorem X6_even_spacing_gives_tempo :
  forall (options : Options) (d : t) (e tm p : R),
    reachable options d ->
    (3 <= length (beatTimes d))%nat ->
    200 < p < 2000 ->
    Forall (fun i => i = p) (TempoSpec.consecutive (beatTimes d ++ [tm])) ->
    isBeat (update d e tm) = true ->
    getBPM (update d e tm) = Math_round (60000 / p) /\
    (p = 600 -> getBPM (update d e tm) = 100).
Proof.
  intros options d e tm p Hr Hlen Hp Hall Hb.
  assert (G : getBPM (update d e tm) = Math_round (60000 / p)).
  { unfold getBPM. rewrite update_estimatedBPM, update_beatTimes, Hb.
    rewrite push_shift_lastN by now apply (reachable_beatTimes options).
    apply even_spacing_tempo; [| assumption |].
    - unfold TempoSpec.lastN. rewrite length_skipn, length_app.
      cbn [length]. lia.
    - now apply consecutive_skipn. }
  split; [exact G |].
  intros ->. rewrite G. apply (Math_round_spec _ 100). lra.
Qed.

Lemma X6_even_spacing_gives_tempo_witness :
  getBPM (update (run (new no_options) threeSpikes) 1 3100) =
  Math_round (60000 / 700).
Proof.
  destruct three_spikes as (s1 & s2 & s3 & _ & E & _ & _ & _ & C & H & L & T & B).
  apply (X6_even_spacing_gives_tempo no_options
           (run (new no_options) threeSpikes) 1 3100 700).
  - apply reachable_run, reach_new.
  - rewrite E, T. simpl. lia.
  - lra.
  - rewrite E, T. cbn [app]. unfold TempoSpec.consecutive.
    cbn [tl combine List.map fst snd].
    repeat (apply Forall_cons; [simpl; lra |]). apply Forall_nil.
  - rewrite E.
    destruct (spike_step s3 3100 (repeat 0 10 ++ [1; 1; 1]))
      as (_ & B4 & _);
      try (unfold variance, average; simpl; lra);
      try (rewrite ?T; simpl; lia); try (rewrite L; lra); auto.
Defined.


(** *** The intensity stays below the decay rate *)

Lemma update_intensity_below_decay (d : t) (e tm : R) :
  0 <= sensitivity d ->
  0 <= decayRate d <= 1 ->
  Forall (fun x => 0 <= x) (energyHistory d) ->
  0 <= e ->
  0 <= beatIntensity d <= decayRate d ->
  0 <= beatIntensity (update d e tm) <= decayRate d.
Proof.
  intros Hs Hd Hh He Hi.
  assert (Hi1 : 0 <= beatIntensity d <= 1) by lra.
  pose proof (update_intensity_range d e tm Hs Hd Hh He Hi1) as [Hlo _].
  split; [exact Hlo |].
  destruct (Nat.lt_ge_cases (length (pushEnergy d e)) 10) as [Hlen | Hlen].
  - rewrite update_warm by assumption. cbn [beatIntensity]. lra.
  - destruct (beatCondition d (pushEnergy d e) e tm) eqn:Hb.
    + rewrite update_beat by assumption. cbn [beatIntensity].
      rewrite update_beat in Hlo by assumption. cbn [beatIntensity] in Hlo.
      pose proof (Rmin_l 1 ((e - average (pushEnergy d e)) /
                            (average (pushEnergy d e) + 0.01))).
      nra.
    + rewrite update_quiet by assumption. cbn [beatIntensity]. nra.
Qed.

(** X7: on a detector whose [sensitivity] is not negative and whose
    [decayRate] lies in [0,1], fed energies that are not negative,
    [getBeatIntensity()] is never above [decayRate] after an update: the
    value assigned on a beat is decayed once before anyone can read it. *)
Theorem X7_intensity_at_most_decayRate :
  forall (options : Options) (calls : list (R * R)),
    0 <= sensitivity (new options) ->
    0 <= decayRate (new options) <= 1 ->
    Forall (fun c => 0 <= fst c) calls ->
    Forall (fun s => 0 <= getBeatIntensity s <= decayRate (new options))
           (states (new options) calls).
Proof.
  intros options calls Hs Hd Hc.
  assert (G : forall (calls : list (R * R)) (d : t),
             0 <= sensitivity d -> 0 <= decayRate d <= 1 ->
             Forall (fun x => 0 <= x) (energyHistory d) ->
             0 <= beatIntensity d <= decayRate d ->
             Forall (fun c => 0 <= fst c) calls ->
             Forall (fun s => 0 <= getBeatIntensity s <= decayRate d)
                    (states d calls)).
  { clear. induction calls as [| c calls IH]; intros d Hs Hd Hh Hi Hc; simpl;
      [constructor |].
    inversion Hc as [| ? ? Hc0 Hrest]; subst.
    destruct (update_config d (fst c) (snd c)) as (E1 & E2 & _ & _).
    pose proof (update_intensity_below_decay d (fst c) (snd c) Hs Hd Hh Hc0 Hi).
    constructor; [assumption |].
    rewrite <- E2. apply IH; rewrite ?E1, ?E2; try assumption.
    rewrite update_history. now apply pushEnergy_Forall. }
  apply G; try assumption; [apply Forall_nil |].
  change (beatIntensity (new options)) with 0. lra.
Qed.

Lemma X7_intensity_at_most_decayRate_witness :
  Forall (fun s => 0 <= getBeatIntensity s <= decayRate (new no_options))
         (states (new no_options) (frames 1000 (spike 3))).
Proof.
  apply X7_intensity_at_most_decayRate.
  - simpl. lra.
  - simpl. lra.
  - apply (frames_Forall (fun e => 0 <= e)).
    eapply Forall_impl; [| apply spike_range]. simpl. intros a Ha. lra.
Defined.

(** *** Beats need energy *)

(** X8: with a [sensitivity] that is not negative and energies that are not
    negative, an update that reports a beat had an energy above 0: a silent
    frame is never a beat. *)
Theorem X8_beat_needs_energy :
  forall (options : Options) (calls : list (R * R)) (k : nat) (s : t) (c : R * R),
    0 <= sensitivity (new options) ->
    Forall (fun c => 0 <= fst c) calls ->
    states (new options) calls !! k = Some s -> calls !! k = Some c ->
    isBeat s = true ->
    0 < fst c.
Proof.
  intros options calls k s c Hs Hc.
  assert (G : forall (calls : list (R * R)) (d : t) (k : nat),
             0 <= sensitivity d ->
             Forall (fun x => 0 <= x) (energyHistory d) ->
             Forall (fun c => 0 <= fst c) calls ->
             states d calls !! k = Some s -> calls !! k = Some c ->
             isBeat s = true ->
             0 < fst c).
  { clear. induction calls as [| c0 calls IH]; intros d k Hs Hh Hc Hk Hck Hb;
      [discriminate |].
    inversion Hc as [| ? ? Hc0 Hrest]; subst.
    destruct k as [| k]; simpl in Hk, Hck.
    - injection Hk as <-. injection Hck as <-.
      apply update_beat_inv in Hb as [_ Hb].
      apply beatCondition_inv in Hb as (Hb & _ & _).
      assert (0 <= average (pushEnergy d (fst c0)))
        by now apply average_nonneg, pushEnergy_Forall.
      pose proof (sqrt_pos (variance (pushEnergy d (fst c0)))).
      nra.
    - apply (IH (update d (fst c0) (snd c0)) k); try assumption.
      + destruct (update_config d (fst c0) (snd c0)) as (E1 & _). now rewrite E1.
      + rewrite update_history. now apply pushEnergy_Forall. }
  apply (G calls (new options) k); try assumption. apply Forall_nil.
Qed.

Lemma X8_beat_needs_energy_witness : 0 < fst ((1, 3100) : R * R).
Proof.
  destruct three_spikes as (s1 & s2 & s3 & _ & E & _ & _ & _ & C & H & L & T & B).
  apply (X8_beat_needs_energy no_options (threeSpikes ++ [(1, 3100)])
           (length threeSpikes)
           (update (run (new no_options) threeSpikes) 1 3100) (1, 3100)).
  - simpl. lra.
  - unfold threeSpikes. cbn [repeat frames app].
    repeat (apply Forall_cons; [simpl; lra |]). apply Forall_nil.
  - rewrite states_last. now rewrite run_app.
  - apply list_lookup_middle. reflexivity.
  - rewrite E.
    destruct (spike_step s3 3100 (repeat 0 10 ++ [1; 1; 1]))
      as (_ & B4 & _);
      try (unfold variance, average; simpl; lra);
      try (rewrite ?T; simpl; lia); try (rewrite L; lra); auto.
Defined.

End BeatDetectorMore.

(** ** Facts about MathUtils *)

Module MathUtilsFacts.

Import JsFacts.
Local Open Scope R_scope.

Lemma clamp_cases (value min max : R) :
  min <= max ->
  (value < min /\ MathUtils.clamp value min max = min) \/
  (min <= value <= max /\ MathUtils.clamp value min max = value) \/
  (max < value /\ MathUtils.clamp value min max = max).
Proof.
  intros H. unfold MathUtils.clamp, Rmax, Rmin.
  destruct (Rle_dec max value); destruct (Rle_dec min max);
    destruct (Rle_dec min value); try lra;
    try (right; left; split; lra).
Qed.

(** X10: [clamp] returns a value between [min] and [max] and leaves a value
    already in that range alone, when [min <= max]; with the bounds the
    wrong way round it returns [min]. *)
Theorem X10_clamp_range :
  forall value min max : R,
    (min <= max ->
       min <= MathUtils.clamp value min max <= max /\
       (min <= value <= max -> MathUtils.clamp value min max = value) /\
       MathUtils.clamp (MathUtils.clamp value min max) min max =
         MathUtils.clamp value min max) /\
    (max < min -> MathUtils.clamp value min max = min).
Proof.
  intros value mn mx. split.
  - intros H.
    assert (R1 : mn <= MathUtils.clamp value mn mx <= mx)
      by (destruct (clamp_cases value mn mx H) as [[? ->] | [[? ->] | [? ->]]]; lra).
    split; [exact R1 |]. split.
    + intros Hv.
      destruct (clamp_cases value mn mx H) as [[? ->] | [[? ->] | [? ->]]]; lra.
    + destruct (clamp_cases (MathUtils.clamp value mn mx) mn mx H)
        as [[? E] | [[? E] | [? E]]]; rewrite E; lra.
  - intros H. unfold MathUtils.clamp, Rmax, Rmin.
    destruct (Rle_dec mx value);
      match goal with
      | |- context [Rle_dec ?a ?b] => destruct (Rle_dec a b)
      end; lra.
Qed.

Lemma X10_clamp_range_witness :
  (0 <= MathUtils.clamp 7 0 1 <= 1 /\
   (0 <= 7 <= 1 -> MathUtils.clamp 7 0 1 = 7) /\
   MathUtils.clamp (MathUtils.clamp 7 0 1) 0 1 = MathUtils.clamp 7 0 1) /\
  MathUtils.clamp 7 1 0 = 1.
Proof.
  split.
  - apply (proj1 (X10_clamp_range 7 0 1)). lra.
  - apply (proj2 (X10_clamp_range 7 1 0)). lra.
Defined.

Lemma hypot_nonneg (a b : R) : 0 <= MathUtils.Math_hypot a b.
Proof. apply sqrt_pos. Qed.

Lemma hypot_sqr (a b : R) :
  MathUtils.Math_hypot a b * MathUtils.Math_hypot a b = a * a + b * b.
Proof. unfold MathUtils.Math_hypot. apply sqrt_sqrt. nra. Qed.

Lemma hypot_zero (a b : R) :
  MathUtils.Math_hypot a b = 0 <-> a = 0 /\ b = 0.
Proof.
  split.
  - intros H. pose proof (hypot_sqr a b) as S. rewrite H in S. nra.
  - intros [-> ->]. unfold MathUtils.Math_hypot.
    replace (0 * 0 + 0 * 0) with 0 by lra. apply sqrt_0.
Qed.

(** X14: [distance] is never negative, is 0 exactly between a point and
    itself, and is the same in both directions. *)
Theorem X14_distance_zero_iff_same_point :
  forall x1 y1 x2 y2 : R,
    0 <= MathUtils.distance x1 y1 x2 y2 /\
    (MathUtils.distance x1 y1 x2 y2 = 0 <-> x1 = x2 /\ y1 = y2) /\
    MathUtils.distance x1 y1 x2 y2 = MathUtils.distance x2 y2 x1 y1.
Proof.
  intros x1 y1 x2 y2. unfold MathUtils.distance.
  split; [apply hypot_nonneg |].
  split; [rewrite hypot_zero; split; intros [? ?]; split; lra |].
  unfold MathUtils.Math_hypot. f_equal. ring.
Qed.

(** X15: given the draw [u] of [Math.random()], which lies in [0,1),
    [randomInt(min, max)] is an integer from [min] to [max], both included,
    when [min] and [max] are integers of the 32-bit range with
    [min <= max]. *)
Theorem X15_randomInt_in_range :
  forall (u : R) (min max : Z),
    0 <= u < 1 ->
    (-2147483648 <= min)%Z -> (min <= max)%Z -> (max <= 2147483647)%Z ->
    exists z : Z,
      MathUtils.randomInt u (IZR min) (IZR max) = IZR z /\
      (min <= z <= max)%Z.
Proof.
  intros u mn mx Hu _ H _. unfold MathUtils.randomInt, MathUtils.Math_floor.
  set (n := IZR mx - IZR mn + 1).
  assert (Hn : 1 <= n) by (unfold n; apply IZR_le in H; lra).
  destruct (base_Int_part (u * n)) as [H1 H2].
  exists (Int_part (u * n) + mn)%Z. split; [now rewrite plus_IZR |].
  assert (Hlo : (0 <= Int_part (u * n))%Z).
  { apply Z.lt_succ_r, lt_IZR.
    replace (IZR (Z.succ (Int_part (u * n)))) with (IZR (Int_part (u * n)) + 1)
      by (rewrite succ_IZR; reflexivity).
    nra. }
  assert (Hhi : (Int_part (u * n) < mx - mn + 1)%Z).
  { apply lt_IZR. rewrite plus_IZR, minus_IZR. fold n. nra. }
  lia.
Qed.

Lemma X15_randomInt_in_range_witness :
  exists z : Z,
    MathUtils.randomInt (/ 2) (IZR 1) (IZR 6) = IZR z /\ (1 <= z <= 6)%Z.
Proof. apply (X15_randomInt_in_range (/ 2) 1 6); [lra | lia | lia | lia]. Defined.

(** *** normalizeAngle *)

Lemma raiseAngle_more (m n : nat) (a r : R) :
  MathUtils.raiseAngle n a = Some r -> MathUtils.raiseAngle (n + m) a = Some r.
Proof.
  revert a. induction n as [| n IH]; intros a; [discriminate |].
  cbn [MathUtils.raiseAngle Nat.add]. destruct (Js.ltb a 0); [apply IH | auto].
Qed.

Lemma lowerAngle_more (m n : nat) (a r : R) :
  MathUtils.lowerAngle n a = Some r -> MathUtils.lowerAngle (n + m) a = Some r.
Proof.
  revert a. induction n as [| n IH]; intros a; [discriminate |].
  cbn [MathUtils.lowerAngle Nat.add].
  destruct (negb (Js.ltb a (PI * 2))); [apply IH | auto].
Qed.

Lemma raiseAngle_spec (n : nat) :
  forall a : R,
    0 <= a + INR n * (PI * 2) ->
    exists (r : R) (k : nat),
      MathUtils.raiseAngle (S n) a = Some r /\
      0 <= r /\ (r < PI * 2 \/ r = a) /\ r = a + INR k * (PI * 2).
Proof.
  induction n as [| n IH]; intros a H.
  - exists a, 0%nat. cbn [MathUtils.raiseAngle]. simpl in H.
    rewrite (proj2 (ltb_false a 0)) by lra.
    repeat split; simpl; try lra; auto.
  - cbn [MathUtils.raiseAngle]. destruct (Js.ltb a 0) eqn:L.
    + apply ltb_true in L.
      destruct (IH (a + PI * 2)) as (r & k & E & Hr & Hlt & Hk).
      { rewrite S_INR in H. lra. }
      exists r, (S k). cbn [MathUtils.raiseAngle] in E.
      split; [exact E |]. split; [exact Hr |]. split.
      * left. destruct Hlt; lra.
      * rewrite S_INR. lra.
    + apply ltb_false in L. exists a, 0%nat.
      repeat split; simpl; try lra; auto.
Qed.

Lemma lowerAngle_spec (n : nat) :
  forall a : R,
    0 <= a -> a < INR (S n) * (PI * 2) ->
    exists (r : R) (k : nat),
      MathUtils.lowerAngle (S n) a = Some r /\
      0 <= r < PI * 2 /\ r = a - INR k * (PI * 2).
Proof.
  induction n as [| n IH]; intros a H0 H.
  - exists a, 0%nat. cbn [MathUtils.lowerAngle]. simpl in H.
    rewrite (proj2 (ltb_true a (PI * 2))) by lra.
    repeat split; simpl; lra.
  - cbn [MathUtils.lowerAngle]. destruct (Js.ltb a (PI * 2)) eqn:L; cbn [negb].
    + apply ltb_true in L. exists a, 0%nat. repeat split; simpl; lra.
    + apply ltb_false in L.
      destruct (IH (a - PI * 2)) as (r & k & E & Hr & Hk).
      { lra. }
      { rewrite (S_INR (S n)) in H. lra. }
      exists r, (S k). cbn [MathUtils.lowerAngle] in E.
      split; [exact E |]. split; [exact Hr |].
      rewrite S_INR. lra.
Qed.

Lemma PI_above_3 : 3 < PI.
Proof. pose proof PI2_3_2. lra. Qed.

(** X16: for an angle of at most [6 N] in size, with [N] up to 10^9,
    [normalizeAngle] ends within [N + 1] tests of each of its loops and
    returns an angle in [0, 2 PI). *)
Theorem X16_normalizeAngle_in_one_turn :
  forall (N : nat) (angle : R),
    INR N <= 1000000000 ->
    - (6 * INR N) <= angle <= 6 * INR N ->
    exists r : R,
      (forall more : nat,
          MathUtils.normalizeAngle (S N + more) angle = Some r) /\
      0 <= r < PI * 2.
Proof.
  intros N angle _ Ha. pose proof PI_above_3 as Hpi.
  pose proof (pos_INR N) as HN.
  assert (H1 : 0 <= angle + INR N * (PI * 2)) by nra.
  destruct (raiseAngle_spec N angle H1) as (a & k1 & E1 & Ha0 & Hlt & _).
  assert (H2 : a < INR (S N) * (PI * 2)).
  { rewrite S_INR. destruct Hlt as [Hlt | ->]; nra. }
  destruct (lowerAngle_spec N a Ha0 H2) as (r & k2 & E2 & Hr & _).
  exists r. split; [| exact Hr].
  intros more. unfold MathUtils.normalizeAngle.
  rewrite (raiseAngle_more _ _ _ _ E1).
  apply lowerAngle_more, E2.
Qed.

Lemma X16_normalizeAngle_in_one_turn_witness :
  exists r : R,
    (forall more : nat, MathUtils.normalizeAngle (3 + more) (-7) = Some r) /\
    0 <= r < PI * 2.
Proof.
  apply (X16_normalizeAngle_in_one_turn 2 (-7)); simpl; lra.
Defined.

End MathUtilsFacts.

(** ** Facts about Easing *)

Module EasingFacts.

Import JsFacts.
Local Open Scope R_scope.

Ltac branch :=
  repeat match goal with
    | |- context [Js.ltb ?a ?b] =>
        let L := fresh "L" in
        destruct (Js.ltb a b) eqn:L;
        [apply ltb_true in L | apply ltb_false in L]
    end.

Lemma prod_bounds (t c p q : R) :
  0 <= t <= c -> 0 <= p <= q -> 0 <= t * p <= c * q.
Proof. intros. split; nra. Qed.

(** Powers of a number in [0, c]. *)
Lemma powers_bounded (t c : R) :
  0 <= t <= c ->
  0 <= t * t <= c * c /\
  0 <= t * t * t <= c * c * c /\
  0 <= t * t * t * t <= c * c * c * c /\
  0 <= t * t * t * t * t <= c * c * c * c * c.
Proof.
  intros H.
  pose proof (prod_bounds t c t c H H) as H2.
  pose proof (prod_bounds t c _ _ H H2) as H3.
  pose proof (prod_bounds t c _ _ H H3) as H4.
  pose proof (prod_bounds t c _ _ H H4) as H5.
  repeat split; nra.
Qed.

(** X20: the quadratic, cubic, quartic and quintic easings, in, out and
    in-out, send 0 to 0 and 1 to 1 and keep every progress in [0,1] within
    [0,1]. *)
Theorem X20_power_easings_stay_in_unit_interval :
  Forall (fun f : R -> R =>
            f 0 = 0 /\ f 1 = 1 /\
            forall t : R, 0 <= t <= 1 -> 0 <= f t <= 1)
         [Easing.linear;
          Easing.easeInQuad; Easing.easeOutQuad; Easing.easeInOutQuad;
          Easing.easeInCubic; Easing.easeOutCubic; Easing.easeInOutCubic;
          Easing.easeInQuart; Easing.easeOutQuart; Easing.easeInOutQuart;
          Easing.easeInQuint; Easing.easeOutQuint; Easing.easeInOutQuint].
Proof.
  repeat (apply Forall_cons; [split; [| split] |]); try apply Forall_nil;
    try (unfold Easing.linear, Easing.easeInQuad, Easing.easeOutQuad,
           Easing.easeInOutQuad, Easing.easeInCubic, Easing.easeOutCubic,
           Easing.easeInOutCubic, Easing.easeInQuart, Easing.easeOutQuart,
           Easing.easeInOutQuart, Easing.easeInQuint, Easing.easeOutQuint,
           Easing.easeInOutQuint; cbn zeta; branch; lra).
  all: intros t Ht;
    unfold Easing.linear, Easing.easeInQuad, Easing.easeOutQuad,
      Easing.easeInOutQuad, Easing.easeInCubic, Easing.easeOutCubic,
      Easing.easeInOutCubic, Easing.easeInQuart, Easing.easeOutQuart,
      Easing.easeInOutQuart, Easing.easeInQuint, Easing.easeOutQuint,
      Easing.easeInOutQuint; cbn zeta; branch.
  all: try (pose proof (powers_bounded t 1 Ht) as (P2 & P3 & P4 & P5));
       try (assert (Hs : 0 <= 1 - t <= 1) by lra;
            pose proof (powers_bounded (1 - t) 1 Hs) as (Q2 & Q3 & Q4 & Q5)).
  all: try (assert (Hh : 0 <= t <= / 2) by lra;
            pose proof (powers_bounded t (/ 2) Hh) as (A2 & A3 & A4 & A5)).
  all: try (assert (Hk : 0 <= 1 - t <= / 2) by lra;
            pose proof (powers_bounded (1 - t) (/ 2) Hk) as (B2 & B3 & B4 & B5)).
  all: try lra.
  all: try (split; nra).
Qed.

(** X23: [easeOutBounce], [easeInBounce] and [easeInOutBounce] send 0 to 0
    and 1 to 1 and keep every progress in [0,1] within [0,1]. *)
Theorem X23_bounce_stays_in_unit_interval :
  Forall (fun f : R -> R =>
            f 0 = 0 /\ f 1 = 1 /\
            forall t : R, 0 <= t <= 1 -> 0 <= f t <= 1)
         [Easing.easeOutBounce; Easing.easeInBounce; Easing.easeInOutBounce].
Proof.
  assert (B : forall t : R, 0 <= t <= 1 -> 0 <= Easing.easeOutBounce t <= 1).
  { intros t Ht. unfold Easing.easeOutBounce. cbn zeta. branch; split; nra. }
  assert (B0 : Easing.easeOutBounce 0 = 0)
    by (unfold Easing.easeOutBounce; cbn zeta; branch; lra).
  assert (B1 : Easing.easeOutBounce 1 = 1)
    by (unfold Easing.easeOutBounce; cbn zeta; branch; lra).
  repeat (apply Forall_cons; [split; [| split] |]); try apply Forall_nil;
    try assumption.
  - unfold Easing.easeInBounce. replace (1 - 0) with 1 by ring. lra.
  - unfold Easing.easeInBounce. replace (1 - 1) with 0 by ring. lra.
  - intros t Ht. unfold Easing.easeInBounce.
    pose proof (B (1 - t)). lra.
  - unfold Easing.easeInOutBounce. branch; try lra.
    replace (1 - 2 * 0) with 1 by ring. lra.
  - unfold Easing.easeInOutBounce. branch; try lra.
    replace (2 * 1 - 1) with 1 by ring. lra.
  - intros t Ht. unfold Easing.easeInOutBounce. branch.
    + pose proof (B (1 - 2 * t)). lra.
    + pose proof (B (2 * t - 1)). lra.
Qed.

(** X24: the back easings overshoot: [easeInBack] starts at 0 and is
    negative on [0.1, 0.6]; [easeOutBack] ends at 1 and is above 1 on
    [0.4, 0.9]. *)
Theorem X24_back_easings_overshoot :
  Easing.easeInBack 0 = 0 /\
  Easing.easeOutBack 1 = 1 /\
  (forall t : R, 0.1 <= t <= 0.6 -> Easing.easeInBack t < 0) /\
  (forall t : R, 0.4 <= t <= 0.9 -> 1 < Easing.easeOutBack t).
Proof.
  unfold Easing.easeInBack, Easing.easeOutBack. cbn zeta.
  repeat split; try (simpl; lra).
  - intros t Ht.
    replace (1.70158 + 1) with 2.70158 by lra.
    replace (2.70158 * t * t * t - 1.70158 * t * t)
      with (t * t * (2.70158 * t - 1.70158)) by lra.
    assert (0 < t * t) by nra. nra.
  - intros t Ht. simpl.
    replace (1 + (1.70158 + 1) * ((t - 1) * ((t - 1) * ((t - 1) * 1))) +
             1.70158 * ((t - 1) * ((t - 1) * 1)))
      with (1 + (1 - t) * (1 - t) * (1.70158 - 2.70158 * (1 - t))) by lra.
    assert (0 < (1 - t) * (1 - t)) by nra. nra.
Qed.

Lemma X24_back_easings_overshoot_witness :
  Easing.easeInBack (/ 2) < 0 /\ 1 < Easing.easeOutBack (/ 2).
Proof.
  destruct X24_back_easings_overshoot as (_ & _ & Hin & Hout).
  split; [apply Hin | apply Hout]; lra.
Defined.

Lemma X20_power_easings_stay_in_unit_interval_witness :
  0 <= Easing.easeInOutCubic (/ 4) <= 1.
Proof.
  apply (proj1 (List.Forall_forall _ _)
           X20_power_easings_stay_in_unit_interval Easing.easeInOutCubic).
  - simpl. tauto.
  - lra.
Defined.

Lemma X23_bounce_stays_in_unit_interval_witness :
  0 <= Easing.easeInOutBounce (/ 4) <= 1.
Proof.
  apply (proj1 (List.Forall_forall _ _)
           X23_bounce_stays_in_unit_interval Easing.easeInOutBounce).
  - simpl. tauto.
  - lra.
Defined.


End EasingFacts.

(** ** Further facts about DemoRunner *)

Module DemoRunnerMore.

Import DemoRunner DemoRunnerFacts.



(** *** One demo at a time *)


Lemma fold_invariant (P : t -> Prop) (calls : list call) :
  (forall (r : t) (c : call), P r -> P (perform r c)) ->
  forall r : t, P r -> P (fold_left perform calls r).
Proof.
  intros Hstep. induction calls as [| c calls IH]; intros r Hr; [exact Hr |].
  apply IH, Hstep, Hr.
Qed.


(** *** The options of the runner and of the active demo *)

Lemma demoOptions_start (d : Demo) : demoOptions (start d) = demoOptions d.
Proof. unfold start. now destruct (isRunning d). Qed.

Lemma getCurrent_alter (f : Demo -> Demo) (r : t) (p : nat)
      (reg : gmap string DemoClass) (cv : option nat)
      (opts : gmap string Js.value) :
  getCurrent {| heap := alter f p (heap r); registry := reg;
                currentDemo := Some p; canvas := cv;
                currentOptions := opts |} =
  f <$> heap r !! p.
Proof. unfold getCurrent. cbn. apply list_lookup_alter_eq. Qed.

Lemma perform_optionsAgree (r : t) (c : call) :
  optionsAgree r -> optionsAgree (perform r c).
Proof.
  unfold optionsAgree, getOptions. intros H.
  destruct c as [cv | id C | id options | | | | name v]; cbn [perform].
  - exact H.
  - exact H.
  - unfold load.
    destruct (canvas r) as [cv |]; [| exact H].
    destruct (registry r !! id) as [C |]; [| exact H].
    cbn [snd]. intros d Hd. unfold getCurrent in Hd. cbn in Hd.
    rewrite list_lookup_middle in Hd by reflexivity. injection Hd as <-.
    cbn. apply map_union_subseteq_l.
  - intros d Hd. unfold getCurrent in Hd.
    destruct (stop_fields r) as (_ & _ & E). rewrite E in Hd. discriminate.
  - unfold pause. destruct (currentDemo r) as [p |] eqn:E; [| exact H].
    intros d Hd. rewrite getCurrent_alter in Hd. cbn.
    unfold getCurrent in H. rewrite E in H.
    destruct (heap r !! p) as [d0 |]; [| discriminate].
    injection Hd as <-. exact (H d0 eq_refl).
  - unfold resume. destruct (currentDemo r) as [p |] eqn:E; [| exact H].
    destruct (negb (isRunningNow r)); [| exact H].
    intros d Hd. rewrite getCurrent_alter in Hd. cbn.
    unfold getCurrent in H. rewrite E in H.
    destruct (heap r !! p) as [d0 |]; [| discriminate].
    injection Hd as <-. rewrite demoOptions_start. exact (H d0 eq_refl).
  - unfold setOption. destruct (currentDemo r) as [p |] eqn:E; [| exact H].
    intros d Hd. rewrite getCurrent_alter in Hd. cbn.
    unfold getCurrent in H. rewrite E in H.
    destruct (heap r !! p) as [d0 |]; [| discriminate].
    injection Hd as <-. cbn. apply insert_mono. exact (H d0 eq_refl).
Qed.

(** X27: [setOption] does nothing without an active demo; with one, it
    stores the value both in the options the runner reports and in the
    options of the active demo.  Whatever calls are made on a new runner,
    every option that [getOptions()] reports is an option of the active demo
    with the same value. *)
Theorem X27_options_agree :
  (forall (r : t) (name : string) (v : Js.value),
      currentDemo r = None -> setOption r name v = r) /\
  (forall (r : t) (name : string) (v : Js.value) (d : Demo),
      getCurrent r = Some d ->
      getOptions (setOption r name v) !! name = Some v /\
      exists d' : Demo,
        getCurrent (setOption r name v) = Some d' /\
        demoOptions d' !! name = Some v) /\
  (forall calls : list call, optionsAgree (after calls)).
Proof.
  split; [| split].
  - intros r name v H. unfold setOption. now rewrite H.
  - intros r name v d Hd. unfold getCurrent in Hd. unfold setOption.
    destruct (currentDemo r) as [p |] eqn:E; [| discriminate].
    split; [unfold getOptions; cbn; apply lookup_insert_eq |].
    exists (setDemoOption d name v). rewrite getCurrent_alter, Hd.
    split; [reflexivity | cbn; apply lookup_insert_eq].
  - intros calls. unfold after.
    apply fold_invariant; [apply perform_optionsAgree |].
    intros d H. discriminate.
Qed.

Lemma X27_options_agree_witness :
  let r := snd (load (register (setCanvas new 7) "plasma" (mkClass "Plasma" ∅))
                     "plasma" ∅) in
  getOptions (setOption r "speed" (Js.num 2)) !! "speed" = Some (Js.num 2).
Proof.
  intros r.
  apply (proj1 (proj2 X27_options_agree) r "speed" (Js.num 2)
           (start (construct (mkClass "Plasma" ∅) 7 ∅))).
  reflexivity.
Defined.

Lemma pause_active (r : t) (p : nat) (d : Demo) :
  currentDemo r = Some p -> heap r !! p = Some d ->
  currentDemo (pause r) = Some p /\ heap (pause r) !! p = Some (stopDemo d).
Proof.
  intros Hp Hd. unfold pause. rewrite Hp. cbn.
  split; [reflexivity |]. now rewrite list_lookup_alter_eq, Hd.
Qed.

Lemma resume_stopped (r : t) (p : nat) (d : Demo) :
  currentDemo r = Some p -> heap r !! p = Some d -> isRunning d = false ->
  currentDemo (resume r) = Some p /\ heap (resume r) !! p = Some (start d).
Proof.
  intros Hp Hd Hr. unfold resume, isRunningNow. rewrite Hp, Hd, Hr. cbn.
  split; [reflexivity |]. now rewrite list_lookup_alter_eq, Hd.
Qed.

(** X28: [pause] stops the active demo and keeps it active; [resume] after
    [pause] starts it again, and this runs its [init] once more; [resume]
    on a demo that is running changes nothing. *)
Theorem X28_pause_and_resume :
  forall (r : t) (p : nat) (d : Demo),
    currentDemo r = Some p -> heap r !! p = Some d ->
    isRunningNow (pause r) = false /\
    getCurrent (pause r) = Some (stopDemo d) /\
    isRunningNow (resume (pause r)) = true /\
    (exists d' : Demo,
        getCurrent (resume (pause r)) = Some d' /\
        initCalls d' = S (initCalls d) /\
        demoOptions d' = demoOptions d) /\
    (isRunning d = true -> resume r = r).
Proof.
  intros r p d Hp Hd.
  destruct (pause_active r p d Hp Hd) as [P1 P2].
  destruct (resume_stopped (pause r) p (stopDemo d) P1 P2 eq_refl) as [R1 R2].
  unfold isRunningNow, getCurrent. rewrite P1, P2, R1, R2.
  repeat split.
  - exists (start (stopDemo d)). repeat split.
  - intros Hr. unfold resume, isRunningNow. now rewrite Hp, Hd, Hr.
Qed.

Lemma X28_pause_and_resume_witness :
  let r := snd (load (register (setCanvas new 7) "plasma" (mkClass "Plasma" ∅))
                     "plasma" ∅) in
  isRunningNow (pause r) = false /\ isRunningNow (resume (pause r)) = true.
Proof.
  intros r.
  destruct (X28_pause_and_resume r 0
              (start (construct (mkClass "Plasma" ∅) 7 ∅)))
    as (H1 & _ & H2 & _); [reflexivity | reflexivity |].
  split; assumption.
Defined.


(** *** registerAll *)

Lemma registerAll_app (r : t) (l1 l2 : list (string * DemoClass)) :
  registerAll r (l1 ++ l2) = registerAll (registerAll r l1) l2.
Proof. apply fold_left_app. Qed.

Lemma registerAll_other (l : list (string * DemoClass)) :
  forall (r : t) (id : string),
    ~ In id (List.map fst l) ->
    registry (registerAll r l) !! id = registry r !! id.
Proof.
  induction l as [| [id0 C0] l IH]; intros r id Hid; [reflexivity |].
  cbn [registerAll fold_left fst snd].
  change (fold_left (fun r e => register r (fst e) (snd e)) l (register r id0 C0))
    with (registerAll (register r id0 C0) l).
  rewrite IH by (intros H; apply Hid; now right).
  cbn [register registry]. apply lookup_insert_ne.
  intros ->. apply Hid. now left.
Qed.

Lemma registerAll_rest (l : list (string * DemoClass)) :
  forall r : t,
    heap (registerAll r l) = heap r /\
    currentDemo (registerAll r l) = currentDemo r /\
    canvas (registerAll r l) = canvas r /\
    currentOptions (registerAll r l) = currentOptions r.
Proof.
  induction l as [| e l IH]; intros r; [now simpl |].
  apply (IH (register r (fst e) (snd e))).
Qed.

(** X29: [registerAll] registers every entry (were an id listed twice, the
    later entry would replace the earlier one), leaves the ids it does not
    mention as they were, and touches nothing but the registry. *)
Theorem X29_registerAll_last_entry_wins :
  forall (r : t) (demos : list (string * DemoClass)),
    (forall (before after : list (string * DemoClass)) (id : string)
            (C : DemoClass),
        demos = before ++ (id, C) :: after ->
        ~ In id (List.map fst after) ->
        registry (registerAll r demos) !! id = Some C) /\
    (forall id : string,
        ~ In id (List.map fst demos) ->
        registry (registerAll r demos) !! id = registry r !! id) /\
    heap (registerAll r demos) = heap r /\
    currentDemo (registerAll r demos) = currentDemo r /\
    canvas (registerAll r demos) = canvas r /\
    currentOptions (registerAll r demos) = currentOptions r.
Proof.
  intros r demos. split; [| split; [| apply registerAll_rest]].
  - intros l1 l2 id C -> Hid.
    rewrite registerAll_app.
    change (registerAll (registerAll r l1) ((id, C) :: l2))
      with (registerAll (register (registerAll r l1) id C) l2).
    rewrite registerAll_other by exact Hid.
    cbn [register registry]. apply lookup_insert_eq.
  - intros id Hid. now apply registerAll_other.
Qed.

Lemma X29_registerAll_last_entry_wins_witness :
  registry (registerAll new [("a", mkClass "A" ∅); ("b", mkClass "B" ∅)]) !! "b" =
  Some (mkClass "B" ∅).
Proof.
  apply (proj1 (X29_registerAll_last_entry_wins new _)
           [("a", mkClass "A" ∅)] []).
  - reflexivity.
  - intros [].
Defined.

End DemoRunnerMore.

(** ** Facts about the frame loop *)

Module FrameLoopFacts.

Import FrameLoop.
Local Open Scope R_scope.

Lemma render_running (d : t) (tm : R) :
  isRunning d = true ->
  isRunning (_render d tm) = true /\
  lastTime (_render d tm) = tm /\
  deltaTime (_render d tm) = tm - lastTime d /\
  frameCount (_render d tm) = S (frameCount d).
Proof. intros H. unfold _render. rewrite H. cbn. auto. Qed.

Lemma deltas_nonneg (times : list R) :
  forall d : t,
    isRunning d = true ->
    Sorted Rle (lastTime d :: times) ->
    Forall (fun dt => 0 <= dt) (deltas d times).
Proof.
  induction times as [| tm times IH]; intros d H Hs; [constructor |].
  destruct (render_running d tm H) as (H1 & H2 & H3 & _).
  inversion Hs as [| ? ? Hs' Hhd]; subst. inversion Hhd; subst.
  cbn [deltas]. constructor; [rewrite H3; lra |].
  apply IH; [exact H1 | now rewrite H2].
Qed.

Lemma last_default (l : list R) (x a b : R) :
  List.last (x :: l) a = List.last (x :: l) b.
Proof.
  revert x. induction l as [| y l IH]; intros x; [reflexivity |].
  change (List.last (y :: l) a = List.last (y :: l) b). apply IH.
Qed.

Lemma frames_lastTime (times : list R) :
  forall d : t,
    isRunning d = true ->
    lastTime (frames d times) = List.last times (lastTime d) /\
    frameCount (frames d times) = (frameCount d + length times)%nat.
Proof.
  induction times as [| tm times IH]; intros d H; [simpl; split; [reflexivity | lia] |].
  destruct (render_running d tm H) as (H1 & H2 & _ & H4).
  destruct (IH (_render d tm) H1) as [IH1 IH2].
  change (frames d (tm :: times)) with (frames (_render d tm) times).
  rewrite IH1, IH2, H2, H4. split; [| simpl; lia].
  destruct times as [| r times]; [reflexivity |].
  change (List.last (r :: times) tm = List.last (r :: times) (lastTime d)).
  apply last_default.
Qed.

(** X30: while a demo runs, every frame callback adds one to [frameCount]
    and sets [lastTime] to its time, and frame times that do not go
    backwards give [deltaTime] values that are not negative; a stopped demo
    ignores frame callbacks, and [start] on a running demo does not restart
    its clock. *)
Theorem X30_frames_count_and_advance :
  forall (d : t) (times : list R),
    (isRunning d = true ->
       frameCount (frames d times) = (frameCount d + length times)%nat /\
       lastTime (frames d times) = List.last times (lastTime d) /\
       (Sorted Rle (lastTime d :: times) ->
          Forall (fun dt => 0 <= dt) (deltas d times))) /\
    (isRunning d = false -> frames d times = d) /\
    (forall now : R, isRunning d = true -> start d now = d).
Proof.
  intros d times. split; [| split].
  - intros H. destruct (frames_lastTime times d H) as [E1 E2].
    split; [exact E2 |]. split; [exact E1 |].
    now apply deltas_nonneg.
  - intros H. induction times as [| tm times IH]; [reflexivity |].
    cbn [frames fold_left]. unfold _render at 2. rewrite H. exact IH.
  - intros now H. unfold start. now rewrite H.
Qed.

Lemma X30_frames_count_and_advance_witness :
  frameCount (frames (start new 100) [116; 133; 150]) = 3%nat /\
  lastTime (frames (start new 100) [116; 133; 150]) = 150.
Proof.
  destruct (proj1 (X30_frames_count_and_advance (start new 100) [116; 133; 150]))
    as (H1 & H2 & _); [reflexivity |].
  split; [exact H1 | exact H2].
Defined.

End FrameLoopFacts.
